(** * Native transclusion plugin: a shallow embedding of [src/main.js]

    The plugin registers a markdown post-processor that replaces embed
    markers ([span.internal-embed]) by the rendered content of the file they
    reference, guards against embed loops with a set of files being
    embedded, and optionally shifts the headings of the embedded text.

    Strings are JavaScript strings, i.e. sequences of UTF-16 code units; the
    DOM is a store of elements addressed by node identity; the plugin's
    asynchronous methods are run-to-completion computations in a state and
    exception monad. *)

From Stdlib Require Import NArith ZArith Ascii String List Lia.
From stdpp Require Import base option list gmap sets.

Local Open Scope N_scope.
Local Open Scope nat_scope.

(** ** JavaScript strings *)

(** A string is the list of its UTF-16 code units. *)
Abbreviation jsstr := (list N).

(** The code units of an ASCII literal. *)
Definition units (s : string) : jsstr :=
  map N_of_ascii (list_ascii_of_string s).

Module Js.

(** [s.includes(pat)]: [pat] occurs in [s] as a contiguous substring. *)
Fixpoint starts_with (pat s : jsstr) : bool :=
  match pat, s with
  | [], _ => true
  | _ :: _, [] => false
  | p :: pat', c :: s' => N.eqb p c && starts_with pat' s'
  end.

Fixpoint includes (s pat : jsstr) : bool :=
  starts_with pat s ||
  match s with
  | [] => false
  | _ :: s' => includes s' pat
  end.

(** ECMAScript [LineTerminator]: LF, CR, LS, PS. *)
Definition is_line_terminator (c : N) : bool :=
  N.eqb c 10 || N.eqb c 13 || N.eqb c 8232 || N.eqb c 8233.

(** ECMAScript [WhiteSpace]: TAB, VT, FF, SP, NBSP, ZWNBSP and the
    Unicode space separators. *)
Definition is_white_space_char (c : N) : bool :=
  N.eqb c 9 || N.eqb c 11 || N.eqb c 12 || N.eqb c 32 || N.eqb c 160 ||
  N.eqb c 5760 || (N.leb 8192 c && N.leb c 8202) ||
  N.eqb c 8239 || N.eqb c 8287 || N.eqb c 12288 || N.eqb c 65279.

(** The character class [\s]: white space or line terminator. *)
Definition cls_space (c : N) : bool :=
  is_white_space_char c || is_line_terminator c.

(** The character class of the literal [#]. *)
Definition hash : N := 35%N.
Definition space : N := 32%N.
Definition cls_hash (c : N) : bool := N.eqb c hash.

(** *** The fragment of regular expressions the plugin uses

    A pattern is a sequence of atoms: the assertions [^] and [$] (each
    with the [m] flag of its pattern) and greedy quantified character
    classes [cls{lo,hi}], possibly wrapped in a capture group. Matching is
    the backtracking search of ECMAScript: a quantifier first takes as many
    characters as it can and gives them back one at a time while the rest
    of the pattern fails. *)
Inductive atom :=
| Bol (multiline : bool)
| Eol (multiline : bool)
| Rep (cls : N → bool) (lo : nat) (hi : option nat) (capture : bool).

Record match_result := MatchResult {
  consumed : nat;
  captures : list jsstr
}.

(** Length of the longest prefix of [s] made of characters of [cls]. *)
Fixpoint run (cls : N → bool) (s : jsstr) : nat :=
  match s with
  | c :: s' => if cls c then S (run cls s') else 0
  | [] => 0
  end.

Definition greedy (cls : N → bool) (hi : option nat) (s : jsstr) : nat :=
  match hi with
  | Some h => Nat.min h (run cls s)
  | None => run cls s
  end.

(** The character before the position reached after [n] characters of [s],
    [prev] being the character before [s] (none at the start of input). *)
Definition prev_after (prev : option N) (s : jsstr) (n : nat) : option N :=
  match n with
  | 0 => prev
  | S n' => match s !! n' with Some c => Some c | None => prev end
  end.

(** [^] holds at the start of input and, with the [m] flag, after a line
    terminator. *)
Definition at_line_start (multiline : bool) (prev : option N) : bool :=
  match prev with
  | None => true
  | Some c => multiline && is_line_terminator c
  end.

(** [$] holds at the end of input and, with the [m] flag, before a line
    terminator. *)
Definition at_line_end (multiline : bool) (s : jsstr) : bool :=
  match s with
  | [] => true
  | c :: _ => multiline && is_line_terminator c
  end.

(** Try the counts [n], [n-1], ..., [lo] in that order. *)
Fixpoint backtrack {R} (try : nat → option R) (lo n : nat) : option R :=
  match try n with
  | Some r => Some r
  | None =>
    match n with
    | 0 => None
    | S n' => if lo <=? n' then backtrack try lo n' else None
    end
  end.

(** Match the pattern anchored at the beginning of [s]. *)
Fixpoint exec_at (p : list atom) (prev : option N) (s : jsstr)
  : option match_result :=
  match p with
  | [] => Some (MatchResult 0 [])
  | Bol m :: p' => if at_line_start m prev then exec_at p' prev s else None
  | Eol m :: p' => if at_line_end m s then exec_at p' prev s else None
  | Rep cls lo hi capture :: p' =>
    let k := greedy cls hi s in
    if k <? lo then None
    else backtrack
      (fun n =>
         match exec_at p' (prev_after prev s n) (drop n s) with
         | Some r =>
           Some (MatchResult (n + consumed r)
                   ((if capture then [take n s] else []) ++ captures r))
         | None => None
         end) lo k
  end.

(** [s.replace(re, f)] for a global ([g]) pattern: scan the input from left
    to right; at each position not covered by the previous match try the
    pattern; a match is replaced by [f match captures] and the scan resumes
    after it (one position further when the match is empty); every other
    character is copied. [skip] counts the characters of the current match
    still to be dropped. *)
Fixpoint replace_from (p : list atom) (f : jsstr → list jsstr → jsstr)
    (prev : option N) (s : jsstr) (skip : nat) : jsstr :=
  match s with
  | [] =>
    match skip, exec_at p prev [] with
    | 0, Some r => f [] (captures r)
    | _, _ => []
    end
  | c :: s' =>
    match skip with
    | S k => replace_from p f (Some c) s' k
    | 0 =>
      match exec_at p prev s with
      | None => c :: replace_from p f (Some c) s' 0
      | Some r =>
        match consumed r with
        | 0 => f [] (captures r) ++ c :: replace_from p f (Some c) s' 0
        | S k => f (take (S k) s) (captures r) ++ replace_from p f (Some c) s' k
        end
      end
    end
  end.

Definition replace_global (p : list atom) (f : jsstr → list jsstr → jsstr)
    (s : jsstr) : jsstr :=
  replace_from p f None s 0.

(** [re.test(s)] for a pattern without the [g] flag: some position of [s]
    admits a match. *)
Fixpoint test_from (p : list atom) (prev : option N) (s : jsstr) : bool :=
  match exec_at p prev s with
  | Some _ => true
  | None =>
    match s with
    | [] => false
    | c :: s' => test_from p (Some c) s'
    end
  end.

Definition test (p : list atom) (s : jsstr) : bool := test_from p None s.

(** Truthiness of a string: the empty string is falsy. *)
Definition truthy_str (s : jsstr) : bool :=
  match s with [] => false | _ => true end.

(** [s.charAt(i)]: the one-character string at index [i], or the empty
    string. *)
Definition charAt (s : jsstr) (i : nat) : jsstr :=
  match s !! i with Some c => [c] | None => [] end.

(** Numbers, as far as the plugin computes with them: the heading levels
    and lengths are small naturals; [parseInt] can also yield [NaN]. *)
Inductive num := NaN | Int (n : nat).

Definition digit (c : N) : option nat :=
  if N.leb 48 c && N.leb c 57 then Some (N.to_nat (c - 48)) else None.

Fixpoint digits_value (acc : nat) (s : jsstr) : nat :=
  match s with
  | c :: s' =>
    match digit c with
    | Some v => digits_value (10 * acc + v) s'
    | None => acc
    end
  | [] => acc
  end.

(** [parseInt(s)] on a string without leading white space, sign or radix
    prefix (the operand is always the single character [charAt] returns):
    the value of the leading decimal digits, [NaN] when there is none. *)
Definition parseInt (s : jsstr) : num :=
  match s with
  | c :: _ => match digit c with Some _ => Int (digits_value 0 s) | None => NaN end
  | [] => NaN
  end.

(** [a + b] and [Math.min(a, b)]; [NaN] is absorbing. *)
Definition add (a b : num) : num :=
  match a, b with Int x, Int y => Int (x + y) | _, _ => NaN end.

Definition min (a b : num) : num :=
  match a, b with Int x, Int y => Int (Nat.min x y) | _, _ => NaN end.

(** [s.repeat(count)]; a [NaN] count converts to zero. *)
Definition repeat (s : jsstr) (count : num) : jsstr :=
  match count with
  | Int n => concat (List.repeat s n)
  | NaN => []
  end.

(** Values of the settings object: what JSON persists. *)
Inductive value :=
| VNull
| VBool (b : bool)
| VNum (n : Z)
| VStr (s : jsstr).

(** Truthiness of a property read; a missing property reads [undefined]. *)
Definition truthy (v : option value) : bool :=
  match v with
  | None | Some VNull => false
  | Some (VBool b) => b
  | Some (VNum n) => negb (Z.eqb n 0)
  | Some (VStr s) => truthy_str s
  end.

(** An object used as a record of named properties. *)
Abbreviation object := (gmap jsstr value).

(** [Object.assign(target, source)]: every own property of [source] is
    written to [target]; a [null] source contributes nothing. *)
Definition assign (target : object) (source : option object) : object :=
  match source with
  | Some src => src ∪ target
  | None => target
  end.

End Js.

(** ** Heading shift: the text transform of [shiftHeadings] *)

(** The pattern [/^(#{1,6})\s+/gm]. *)
Definition heading_re : list Js.atom :=
  [Js.Bol true; Js.Rep Js.cls_hash 1 (Some 6) true;
   Js.Rep Js.cls_space 1 None false].

(** [Math.min(hashes.length + parentHeaderLevel, 6)]. *)
Definition newLevel (hashes : jsstr) (parentHeaderLevel : Js.num) : Js.num :=
  Js.min (Js.add (Js.Int (length hashes)) parentHeaderLevel) (Js.Int 6).

(** The replacement callback
    [(match, hashes) => "#".repeat(newLevel) + " "]. *)
Definition shifted_marker (parentHeaderLevel : Js.num)
    (_match : jsstr) (groups : list jsstr) : jsstr :=
  let hashes := hd [] groups in
  Js.repeat [Js.hash] (newLevel hashes parentHeaderLevel) ++ [Js.space].

(** [content.replace(/^(#{1,6})\s+/gm, ...)], the second statement of
    [shiftHeadings], reached when the parent level is not [null]. *)
Definition shift_text (parentHeaderLevel : Js.num) (content : jsstr) : jsstr :=
  Js.replace_global heading_re (shifted_marker parentHeaderLevel) content.

(** ** The DOM *)

(** Nodes have identity; the document is a store from node identities to
    elements, each holding its parent and child links. Only elements are
    modelled: [parentElement] and selectors never see other nodes. *)
Abbreviation node := positive.

Record Element := mkElement {
  tagName : jsstr;
  src_attr : option jsstr;        (* the [src] attribute, [null] if absent *)
  classList : list jsstr;
  textContent : jsstr;
  outerHTML : jsstr;              (* serialisation, as the host provides it *)
  parentElement : option node;
  childElements : list node
}.

#[export] Instance Element_inhabited : Inhabited Element :=
  populate (mkElement [] None [] [] [] None []).

Abbreviation DOM := (gmap node Element).

Module Dom.

Definition with_parent (e : Element) (p : option node) : Element :=
  mkElement (tagName e) (src_attr e) (classList e) (textContent e)
    (outerHTML e) p (childElements e).

Definition with_children (e : Element) (cs : list node) : Element :=
  mkElement (tagName e) (src_attr e) (classList e) (textContent e)
    (outerHTML e) (parentElement e) cs.

Definition with_classes (e : Element) (cl : list jsstr) : Element :=
  mkElement (tagName e) (src_attr e) cl (textContent e)
    (outerHTML e) (parentElement e) (childElements e).

(** [el.getAttribute("src")]. *)
Definition getAttribute_src (d : DOM) (n : node) : option jsstr :=
  src_attr (d !!! n).

(** Descendants of [n] in document order, [n] excluded. *)
Fixpoint descendants (fuel : nat) (d : DOM) (n : node) : list node :=
  match fuel with
  | 0 => []
  | S fuel' =>
    flat_map (fun c => c :: descendants fuel' d c) (childElements (d !!! n))
  end.

(** The selector [span.internal-embed]. *)
Definition is_internal_embed (e : Element) : bool :=
  bool_decide (tagName e = units "SPAN") &&
  bool_decide (units "internal-embed" ∈ classList e).

(** [el.querySelectorAll("span.internal-embed")]: a static list. *)
Definition querySelectorAll (d : DOM) (el : node) : list node :=
  List.filter (fun n => is_internal_embed (d !!! n))
    (descendants (size d) d el).

(** The global [createDiv({ text, cls })]: a new, detached [div]. Its
    serialisation is left empty: the plugin reads [outerHTML] of markers
    only. *)
Definition createDiv (text : jsstr) (cls : list jsstr) (d : DOM)
  : DOM * node :=
  let n := fresh (dom d) in
  (<[n := mkElement (units "DIV") None cls text [] None []]> d, n).

(** [el.addClass(c)]. *)
Definition addClass (n : node) (c : jsstr) (d : DOM) : DOM :=
  let e := d !!! n in
  if bool_decide (c ∈ classList e) then d
  else <[n := with_classes e (classList e ++ [c])]> d.

(** Replace the first occurrence of [old] in a child list. *)
Fixpoint replace_child (old new : node) (cs : list node) : list node :=
  match cs with
  | [] => []
  | c :: cs' =>
    if bool_decide (c = old) then new :: cs' else c :: replace_child old new cs'
  end.

Definition remove_child (n : node) (cs : list node) : list node :=
  List.filter (fun c => negb (bool_decide (c = n))) cs.

(** Take [n] out of the child list of its parent, if it has one. *)
Definition detach (n : node) (d : DOM) : DOM :=
  match parentElement (d !!! n) with
  | None => d
  | Some p =>
    <[n := with_parent (d !!! n) None]>
      (<[p := with_children (d !!! p)
                (remove_child n (childElements (d !!! p)))]> d)
  end.

(** [old.replaceWith(new)]: nothing happens when [old] has no parent;
    otherwise [new] leaves its own parent and takes the place of [old],
    which becomes detached. *)
Definition replaceWith (old new : node) (d : DOM) : DOM :=
  match parentElement (d !!! old) with
  | None => d
  | Some p =>
    let d1 := detach new d in
    let d2 := <[p := with_children (d1 !!! p)
                       (replace_child old new (childElements (d1 !!! p)))]> d1 in
    let d3 := <[new := with_parent (d2 !!! new) (Some p)]> d2 in
    <[old := with_parent (d3 !!! old) None]> d3
  end.

End Dom.

(** ** The host: vault, renderer, console *)

(** A rejected promise or a thrown exception carries a value; its content
    is irrelevant here. *)
Inductive exn := Exn (message : jsstr).

Inductive TAbstractFile :=
| TFile (path : jsstr)
| TFolder (path : jsstr).

(** The part of [app.vault] the plugin calls. [read] may reject. *)
Record Vault := mkVault {
  getAbstractFileByPath : jsstr → option TAbstractFile;
  read : TAbstractFile → exn + jsstr
}.

(** [file instanceof this.app.vault.getFileClass()]. *)
Definition is_file (f : TAbstractFile) : bool :=
  match f with TFile _ => true | TFolder _ => false end.

(** The context handed to a post-processor. *)
Record Ctx := mkCtx { sourcePath : jsstr }.

(** What the plugin does to its environment, in order. *)
Inductive Event :=
| ConsoleLog (msg : jsstr)
| ConsoleWarn (msg : jsstr)
| VaultRead (file : TAbstractFile)
| Render (content : jsstr) (container : node) (path : jsstr).

(** ** Plugin state and the monad of its methods *)

Record World := mkWorld {
  nodes : DOM;
  settings : Js.object;            (* [this.settings] *)
  embeddedFiles : gset jsstr;      (* [this.embeddedFiles] *)
  trace : list Event
}.

(** A method call ends normally, throws, or does not end within the bound
    given to the model ([Diverge]). The world at that point is kept in all
    three cases: mutations made before a throw persist. *)
Inductive outcome (A : Type) :=
| Ok (a : A)
| Throw (e : exn)
| Diverge.
Arguments Ok {A} a.
Arguments Throw {A} e.
Arguments Diverge {A}.

Definition M (A : Type) : Type := World → World * outcome A.

Definition ret {A} (a : A) : M A := fun w => (w, Ok a).

Definition bind {A B} (m : M A) (k : A → M B) : M B :=
  fun w =>
    match m w with
    | (w', Ok a) => k a w'
    | (w', Throw e) => (w', Throw e)
    | (w', Diverge) => (w', Diverge)
    end.

Definition throw {A} (e : exn) : M A := fun w => (w, Throw e).
Definition diverge {A} : M A := fun w => (w, Diverge).
Definition gets {A} (f : World → A) : M A := fun w => (w, Ok (f w)).
Definition modify (f : World → World) : M unit := fun w => (f w, Ok tt).

#[export] Instance M_ret : MRet M := @ret.
#[export] Instance M_bind : MBind M := fun A B k m => bind m k.

Definition set_nodes (d : DOM) (w : World) : World :=
  mkWorld d (settings w) (embeddedFiles w) (trace w).
Definition set_settings (s : Js.object) (w : World) : World :=
  mkWorld (nodes w) s (embeddedFiles w) (trace w).
Definition set_embeddedFiles (s : gset jsstr) (w : World) : World :=
  mkWorld (nodes w) (settings w) s (trace w).
Definition emit (e : Event) : M unit :=
  modify (fun w => mkWorld (nodes w) (settings w) (embeddedFiles w)
                     (trace w ++ [e])).

(** A DOM operation that allocates: run it on the current document. *)
Definition alloc (f : DOM → DOM * node) : M node :=
  fun w => let '(d, n) := f (nodes w) in (set_nodes d w, Ok n).

(** Awaiting a host promise. *)
Definition await {A} (r : exn + A) : M A :=
  match r with
  | inl e => throw e
  | inr a => ret a
  end.

Fixpoint for_of {A} (xs : list A) (body : A → M unit) : M unit :=
  match xs with
  | [] => ret tt
  | x :: xs' => body x;; for_of xs' body
  end.

(** ** The plugin *)

Definition key_renderAll : jsstr := units "renderAllTransclusions".
Definition key_shiftHeadings : jsstr := units "shiftHeadings".

(** The warning sign and its variation selector, U+26A0 U+FE0F. *)
Definition warning_sign : jsstr := [9888%N; 65039%N].

(** The texts of the template literals
    [`⚠️ Infinite loop detected: ${filePath}`] (the warning node) and
    [`⚠️ Infinite embed loop detected! Skipping: ${filePath}`] (the
    console). *)
Definition loop_text (filePath : jsstr) : jsstr :=
  warning_sign ++ units " Infinite loop detected: " ++ filePath.
Definition loop_message (filePath : jsstr) : jsstr :=
  warning_sign ++ units " Infinite embed loop detected! Skipping: " ++ filePath.

(** The pattern [/^H[1-6]$/]. *)
Definition heading_tag_re : list Js.atom :=
  [Js.Bol false;
   Js.Rep (N.eqb 72) 1 (Some 1) false;
   Js.Rep (fun c => N.leb 49 c && N.leb c 54) 1 (Some 1) false;
   Js.Eol false].

(** [getParentHeaderLevel]: the loop [while (parent)] walks the
    [parentElement] links starting at the transclusion itself. The result
    is [Some r] when the method returns [r] ([None] being [null]); the
    outer [None] stands for a walk that does not end within the bound,
    which needs a cycle of parent links. *)
Fixpoint parent_walk (bound : nat) (d : DOM) (parent : option node)
  : option (option Js.num) :=
  match bound with
  | 0 => None
  | S bound' =>
    match parent with
    | None => Some None
    | Some n =>
      let e := d !!! n in
      if Js.truthy_str (tagName e) && Js.test heading_tag_re (tagName e)
      then Some (Some (Js.parseInt (Js.charAt (tagName e) 1)))
      else parent_walk bound' d (parentElement e)
    end
  end.

Definition getParentHeaderLevel (d : DOM) (transclusion : node)
  : option (option Js.num) :=
  parent_walk (S (S (size d))) d (Some transclusion).

(** The two [return]s of [shiftHeadings], as a function of the content
    and of the parent level found. *)
Definition shift (parentHeaderLevel : option Js.num) (content : jsstr) : jsstr :=
  match parentHeaderLevel with
  | None => content
  | Some level => shift_text level content
  end.

(** [shiftHeadings(content, transclusion)]. *)
Definition shiftHeadings (content : jsstr) (transclusion : node) : M jsstr :=
  d ← gets nodes;
  match getParentHeaderLevel d transclusion with
  | None => diverge
  | Some parentHeaderLevel => mret (shift parentHeaderLevel content)
  end.

(** [loadSettings], given what [loadData] resolves to ([None] when nothing
    was persisted). *)
Definition default_settings : Js.object :=
  {[ key_renderAll := Js.VBool false; key_shiftHeadings := Js.VBool false ]}.

Definition loadSettings (loadData : option Js.object) : M unit :=
  modify (set_settings (Js.assign default_settings loadData)).

Section PostProcessor.

Variable vault : Vault.

(** [MarkdownRenderer.render(app, content, container, sourcePath, ctx)]. *)
Variable render : jsstr → node → jsstr → Ctx → M unit.

(** The branch taken when the file is already being embedded: lines 32
    to 35. *)
Definition warn_loop (transclusion : node) (filePath : jsstr) : M unit :=
  emit (ConsoleWarn (loop_message filePath));;
  warning ← alloc (Dom.createDiv (loop_text filePath) [units "embed-warning"]);
  modify (fun w => set_nodes (Dom.replaceWith transclusion warning (nodes w)) w).

(** The embedding proper: lines 38 to 58. *)
Definition enter (transclusion : node) (filePath : jsstr)
    (file : TAbstractFile) (ctx : Ctx) : M unit :=
  modify (fun w => set_embeddedFiles ({[filePath]} ∪ embeddedFiles w) w);;
  emit (VaultRead file);;
  fileContent ← await (read vault file);
  s ← gets settings;
  fileContent ← (if Js.truthy (s !! key_shiftHeadings)
                 then shiftHeadings fileContent transclusion
                 else mret fileContent);
  container ← alloc (Dom.createDiv [] []);
  modify (fun w => set_nodes
            (Dom.addClass container (units "native-transclusion") (nodes w)) w);;
  render fileContent container filePath ctx;;
  modify (fun w => set_nodes (Dom.replaceWith transclusion container (nodes w)) w);;
  modify (fun w => set_embeddedFiles (embeddedFiles w ∖ {[filePath]}) w).

(** The body of the loop once the file is resolved: lines 30 to 58. *)
Definition embed (transclusion : node) (filePath : jsstr)
    (file : TAbstractFile) (ctx : Ctx) : M unit :=
  inflight ← gets embeddedFiles;
  if bool_decide (filePath ∈ inflight)
  then warn_loop transclusion filePath
  else enter transclusion filePath file ctx.

(** [this.settings.renderAllTransclusions || isExplicit]. *)
Definition isExplicit (d : DOM) (transclusion : node) : bool :=
  Js.includes (outerHTML (d !!! transclusion)) (units "!![[").

Definition shouldProcess (w : World) (transclusion : node) : bool :=
  Js.truthy (settings w !! key_renderAll) || isExplicit (nodes w) transclusion.

(** What the gate lets through: lines 26 to 60. *)
Definition resolve (ctx : Ctx) (transclusion : node)
    (filePath : option jsstr) : M unit :=
  match filePath with
  | Some filePath =>
    if Js.truthy_str filePath then
      match getAbstractFileByPath vault filePath with
      | Some file =>
        if is_file file then embed transclusion filePath file ctx
        else mret tt
      | None => mret tt
      end
    else mret tt
  | None => mret tt
  end.

(** One iteration of the loop: lines 20 to 61. *)
Definition process_marker (ctx : Ctx) (transclusion : node) : M unit :=
  w ← gets id;
  let filePath := Dom.getAttribute_src (nodes w) transclusion in
  if shouldProcess w transclusion
  then resolve ctx transclusion filePath
  else mret tt.

(** The registered post-processor [async (el, ctx) => ...]. *)
Definition postProcessor (el : node) (ctx : Ctx) : M unit :=
  d ← gets nodes;
  for_of (Dom.querySelectorAll d el) (process_marker ctx).

End PostProcessor.

(** ** The renderer of the host *)

(** Modelled from the spec: [MarkdownRenderer.render] belongs to the host
    and is not in the sources. Its contract (external interfaces): it
    writes the rendering of [content] into the container, or rejects, and
    then runs the registered post-processor on what it produced, with the
    embedded file as the source path. How markdown becomes elements is
    left to the host ([build]). *)
Record Renderer := mkRenderer {
  build : jsstr → jsstr → node → DOM → exn + DOM
}.

(** Modelled from the spec: the call
    [MarkdownRenderer.render(app, content, container, path, ctx)] under
    that contract, [postProcess] being the registered post-processor. *)
Definition host_render (host : Renderer)
    (postProcess : node → Ctx → M unit)
    (content : jsstr) (container : node) (path : jsstr) (_ : Ctx) : M unit :=
  emit (Render content container path);;
  d ← gets nodes;
  d' ← await (build host content path container d);
  modify (set_nodes d');;
  postProcess container (mkCtx path).

(** The post-processor and the renderer call each other; [depth] bounds
    the nesting of renders. *)
Fixpoint pipeline (vault : Vault) (host : Renderer) (depth : nat)
    (el : node) (ctx : Ctx) : M unit :=
  match depth with
  | 0 => diverge
  | S depth' =>
    postProcessor vault (host_render host (pipeline vault host depth')) el ctx
  end.

(** [onload], up to the registration of the post-processor. *)
Definition onload (loadData : option Js.object) : M unit :=
  emit (ConsoleLog (units "Loading Native Transclusion Plugin"));;
  loadSettings loadData;;
  modify (set_embeddedFiles ∅).

(** ** Vocabulary of the statements *)

(** The number of markers and of white space characters a match of the
    heading pattern at the beginning of [s] would take. *)
Definition markers (s : jsstr) : nat := Js.run Js.cls_hash s.
Definition blanks (s : jsstr) : nat := Js.run Js.cls_space (drop (markers s) s).

Definition heading_here (prev : option N) (s : jsstr) : bool :=
  Js.at_line_start true prev &&
  (1 <=? markers s) && (markers s <=? 6) && (1 <=? blanks s).

(** The transform resumed in the middle of a text, [prev] being the
    character before [s]; [shift_text l s] is [shift_from l None s]. *)
Definition shift_from (parentHeaderLevel : Js.num) (prev : option N)
    (s : jsstr) : jsstr :=
  Js.replace_from heading_re (shifted_marker parentHeaderLevel) prev s 0.

(** The character before the position that follows [a], when [prev] was
    the character before [a]. *)
Definition last_or (prev : option N) (a : jsstr) : option N :=
  match last a with Some c => Some c | None => prev end.

(** Lines, for the statements about whole texts: a text is a sequence of
    lines, each closed by a line terminator, and a last line. *)
Definition no_terminator (line : jsstr) : Prop :=
  Forall (λ c, Js.is_line_terminator c = false) line.

Fixpoint unlines (ls : list (jsstr * N)) (final : jsstr) : jsstr :=
  match ls with
  | [] => final
  | (line, t) :: ls' => line ++ t :: unlines ls' final
  end.

(** The line begins with one to six markers followed by white space. *)
Definition is_heading_line (line : jsstr) : bool :=
  (1 <=? markers line) && (markers line <=? 6) && (1 <=? blanks line).

(** What the shift does to one line, stated on the line alone: the
    markers of a heading line become [min (h + l) 6] markers, the white
    space after them one space, the rest is kept; any other line is kept. *)
Definition shift_line (l : nat) (line : jsstr) : jsstr :=
  if is_heading_line line
  then List.repeat Js.hash (Nat.min (markers line + l) 6) ++ [Js.space] ++
       drop (markers line + blanks line) line
  else line.

(** A line whose markers, if it begins with one to six of them, are
    followed on the same line by something that is not white space: its
    heading, if any, has a title. *)
Definition titled_line (line : jsstr) : Prop :=
  no_terminator line ∧
  (1 ≤ markers line ≤ 6 → markers line + blanks line < length line).

(** The level a tag name stands for: [Some l] for [H1] to [H6]. *)
Definition heading_level (tag : jsstr) : option nat :=
  match tag with
  | [h; d] =>
    if N.eqb h 72 && N.leb 49 d && N.leb d 54
    then Some (N.to_nat (d - 48))
    else None
  | _ => None
  end.

(** [ancestors d o l]: following the [parentElement] links from [o]
    visits exactly the nodes [l], nearest first, and reaches the root. *)
Inductive ancestors (d : DOM) : option node → list node → Prop :=
| ancestors_root : ancestors d None []
| ancestors_step n l :
    ancestors d (parentElement (d !!! n)) l → ancestors d (Some n) (n :: l).

(** The level of the first heading element of a chain of nodes. *)
Fixpoint nearest_heading (d : DOM) (chain : list node) : option nat :=
  match chain with
  | [] => None
  | n :: chain' =>
    match heading_level (tagName (d !!! n)) with
    | Some l => Some l
    | None => nearest_heading d chain'
    end
  end.

(** A world transformer keeps the guard when a normal return leaves the
    set of files being embedded, and the settings, as they were. *)
Definition keeps_guard (m : M unit) : Prop :=
  ∀ w w', m w = (w', Ok tt) →
    embeddedFiles w' = embeddedFiles w ∧ settings w' = settings w.

(** A world transformer extends the trace when, however it ends, it has
    only added events. *)
Definition extends_trace {A} (m : M A) : Prop :=
  ∀ w w' o, m w = (w', o) → ∃ evs, trace w' = trace w ++ evs.

(** Every path in the set is one the gate and the vault accepted. *)
Definition guard_sound (vault : Vault) (w : World) : Prop :=
  ∀ p, p ∈ embeddedFiles w →
    Js.truthy_str p = true ∧
    ∃ f, getAbstractFileByPath vault p = Some f ∧ is_file f = true.

Definition keeps_sound (vault : Vault) {A} (m : M A) : Prop :=
  ∀ w w' o, m w = (w', o) → guard_sound vault w → guard_sound vault w'.

(** ** Example documents, vault and renderer *)

(** A marker three levels under an [H2]. *)
Definition nested_under_h2 : DOM :=
  list_to_map
    [(1%positive, mkElement (units "H2") None [] [] [] None [2%positive]);
     (2%positive, mkElement (units "DIV") None [] [] [] (Some 1%positive) [3%positive]);
     (3%positive, mkElement (units "P") None [] [] [] (Some 2%positive) [4%positive]);
     (4%positive, mkElement (units "SPAN") (Some (units "b.md"))
                    [units "internal-embed"] [] [] (Some 3%positive) [])].

(** A vault with five notes and a folder: [a.md] and [b.md] embed each
    other, reading [locked.md] fails. *)
Definition a_md : jsstr := units "a.md".
Definition b_md : jsstr := units "b.md".
Definition plain_md : jsstr := units "plain.md".
Definition locked_md : jsstr := units "locked.md".
Definition broken_md : jsstr := units "broken.md".

Definition example_vault : Vault :=
  mkVault
    (λ p, if bool_decide (p ∈ [a_md; b_md; plain_md; locked_md; broken_md])
          then Some (TFile p)
          else if bool_decide (p = units "notes") then Some (TFolder p)
          else None)
    (λ f, match f with
          | TFile p =>
            if bool_decide (p = locked_md) then inl (Exn (units "EIO"))
            else if bool_decide (p = a_md) then inr (units "see b")
            else if bool_decide (p = b_md) then inr (units "see a")
            else inr (units "# Title")
          | TFolder _ => inl (Exn (units "EISDIR"))
          end).

Definition explicit_marker (src : option jsstr) (parent : node) : Element :=
  mkElement (units "SPAN") src [units "internal-embed"] []
    (units "<span class=internal-embed>!![[note]]</span>") (Some parent) [].

Definition implicit_marker (src : option jsstr) (parent : node) : Element :=
  mkElement (units "SPAN") src [units "internal-embed"] []
    (units "<span class=internal-embed></span>") (Some parent) [].

(** A renderer that fails on [broken.md], renders the text [see a] (resp.
    [see b]) as one explicit embed of [a.md] (resp. [b.md]) and any other
    text as nothing. *)
Definition example_build (content path : jsstr) (container : node) (d : DOM)
  : exn + DOM :=
  let embed_of target :=
    let n := fresh (dom d) in
    inr (<[container := Dom.with_children (d !!! container) [n]]>
           (<[n := explicit_marker (Some target) container]> d)) in
  if bool_decide (path = broken_md) then inl (Exn (units "render failed"))
  else if bool_decide (content = units "see a") then embed_of a_md
  else if bool_decide (content = units "see b") then embed_of b_md
  else inr d.

Definition example_host : Renderer := mkRenderer example_build.

Definition example_doc : DOM :=
  list_to_map
    [(1%positive, mkElement (units "DIV") None [] [] [] None
                    [2; 3; 4; 5; 6; 7; 8; 9; 10; 11]%positive);
     (2%positive, explicit_marker (Some plain_md) 1);
     (3%positive, explicit_marker (Some plain_md) 1);
     (4%positive, explicit_marker (Some locked_md) 1);
     (5%positive, explicit_marker (Some broken_md) 1);
     (6%positive, implicit_marker (Some plain_md) 1);
     (7%positive, explicit_marker None 1);
     (8%positive, explicit_marker (Some (units "missing.md")) 1);
     (9%positive, explicit_marker (Some (units "notes")) 1);
     (10%positive, explicit_marker (Some locked_md) 1);
     (11%positive, explicit_marker (Some a_md) 1)].

Definition example_world : World := mkWorld example_doc default_settings ∅ [].
Definition example_ctx : Ctx := mkCtx (units "root.md").
Definition example_render : jsstr → node → jsstr → Ctx → M unit :=
  host_render example_host (pipeline example_vault example_host 4).

(** The example world while [plain.md] is being embedded. *)
Definition inflight_world : World :=
  mkWorld example_doc default_settings {[plain_md]} [].


(** A fragment whose two embeds both succeed: [plain.md], and [a.md],
    which embeds [b.md], which embeds [a.md] again. *)
Definition nested_doc : DOM :=
  list_to_map
    [(1%positive, mkElement (units "DIV") None [] [] [] None [2; 3]%positive);
     (2%positive, explicit_marker (Some plain_md) 1);
     (3%positive, explicit_marker (Some a_md) 1)].

Definition nested_world : World := mkWorld nested_doc default_settings ∅ [].

(** ** Vocabulary of the further properties *)

(** A character that is neither a marker nor white space. *)
Definition is_content (c : N) : bool :=
  negb (Js.cls_hash c || Js.cls_space c).

(** No marker stands at a line start of [s], [prev] being the character
    before [s]. *)
Fixpoint calm (prev : option N) (s : jsstr) : bool :=
  match s with
  | [] => true
  | c :: s' =>
    negb (Js.at_line_start true prev && Js.cls_hash c) && calm (Some c) s'
  end.

(** What an iteration is about to embed, if anything: the path and the
    file that lines 20 to 28 arrive at. *)
Definition target (vault : Vault) (w : World) (transclusion : node)
  : option (jsstr * TAbstractFile) :=
  if shouldProcess w transclusion then
    match Dom.getAttribute_src (nodes w) transclusion with
    | Some filePath =>
      if Js.truthy_str filePath then
        match getAbstractFileByPath vault filePath with
        | Some file => if is_file file then Some (filePath, file) else None
        | None => None
        end
      else None
    | None => None
    end
  else None.

(** The text handed to the renderer for [content]: lines 43 to 45.
    [None] when the ancestor walk does not return. *)
Definition prepared_content (w : World) (transclusion : node)
    (content : jsstr) : option jsstr :=
  if Js.truthy (settings w !! key_shiftHeadings)
  then (λ level, shift level content) <$>
         getParentHeaderLevel (nodes w) transclusion
  else Some content.

(** The document with the container of lines 48 and 49 in it. *)
Definition with_container (d : DOM) : DOM * node :=
  let '(d1, container) := Dom.createDiv [] [] d in
  (Dom.addClass container (units "native-transclusion") d1, container).

(** The call ended: it returned or threw. *)
Definition ended {A} (o : outcome A) : bool :=
  match o with Diverge => false | _ => true end.

(** A fragment whose markers are all skipped. *)
Definition quiet_doc : DOM :=
  list_to_map
    [(1%positive, mkElement (units "DIV") None [] [] [] None
                    [2; 3; 4; 5]%positive);
     (2%positive, implicit_marker (Some plain_md) 1);
     (3%positive, explicit_marker None 1);
     (4%positive, explicit_marker (Some (units "missing.md")) 1);
     (5%positive, explicit_marker (Some (units "notes")) 1)].

Definition quiet_world : World := mkWorld quiet_doc default_settings ∅ [].

Definition example_files : gset jsstr :=
  list_to_set [a_md; b_md; plain_md; locked_md; broken_md].

(** The nesting bound [depth] is enough for the world [w]: it exceeds
    the number of files of [files] that are not being embedded. The
    ancestor walk is out of the picture: headings are not shifted. *)
Definition fits (files : gset jsstr) (depth : nat) (w : World) : Prop :=
  Js.truthy (settings w !! key_shiftHeadings) = false ∧
  size (files ∖ embeddedFiles w) < depth.

(** ** Persisted data and the settings tab *)

(** The data file of the plugin as [loadData] and [saveData] see it.
    [data_json] is [None] while nothing was saved; [write_error], when
    set, is what [saveData] rejects with. The file holds a JSON copy of
    what was saved, and a settings object holds JSON values only. *)
Record Storage := mkStorage {
  data_json : option Js.object;
  write_error : option exn
}.

(** The plugin and its data file. *)
Definition App : Type := World * Storage.

Definition loadData (st : Storage) : option Js.object := data_json st.

Definition saveData (o : Js.object) (st : Storage) : Storage * outcome unit :=
  match write_error st with
  | Some e => (st, Throw e)
  | None => (mkStorage (Some o) None, Ok tt)
  end.

(** [saveSettings]: [await this.saveData(this.settings)]. *)
Definition saveSettings (a : App) : App * outcome unit :=
  let '(st, o) := saveData (settings a.1) a.2 in ((a.1, st), o).

(** [loadSettings] with the [loadData] of the data file. *)
Definition loadSettings_from (a : App) : App * outcome unit :=
  let '(w, o) := loadSettings (loadData a.2) a.1 in ((w, a.2), o).

(** [this.plugin.settings.<key> = value]. *)
Definition set_setting (key : jsstr) (value : bool) (w : World) : World :=
  set_settings (<[key := Js.VBool value]> (settings w)) w.

(** The [onChange] callback of a toggle: lines 124 to 127 and 135 to
    138. The assignment comes first, the save is awaited after it. *)
Definition onChange (key : jsstr) (value : bool) (a : App)
  : App * outcome unit :=
  saveSettings (set_setting key value a.1, a.2).

(** What [display] asks of the host: the text of the heading and, for
    each of the two [Setting]s, the name, the description, the value the
    toggle is set to and its callback. The elements themselves (the
    emptied container, the [h2], what [Setting] builds) belong to the
    host and are not modelled. *)
Record Toggle := mkToggle {
  toggle_name : jsstr;
  toggle_desc : jsstr;
  toggle_value : option Js.value;
  toggle_onChange : bool → App → App * outcome unit
}.

Definition display (w : World) : jsstr * list Toggle :=
  (units "Native Transclusion Settings",
   [mkToggle (units "Render all transclusions as native content")
      (units "If enabled, all ![[file]] transclusions will render as native content. If disabled, only !![[file]] transclusions will be processed this way.")
      (settings w !! key_renderAll)
      (onChange key_renderAll);
    mkToggle (units "Shift headings in embedded content")
      (units "If enabled, headings in embedded files will adjust based on their position in the main file to maintain hierarchy.")
      (settings w !! key_shiftHeadings)
      (onChange key_shiftHeadings)]).

Definition empty_storage : Storage := mkStorage None None.
Definition locked_storage : Storage :=
  mkStorage None (Some (Exn (units "EACCES"))).

(** * Properties *)

(** ** The pattern of heading lines *)

Section HeadingPattern.

Import Js.

Lemma backtrack_hit {R} (try : nat → option R) lo n r :
  try n = Some r → backtrack try lo n = Some r.
Proof. intros H. destruct n; simpl; rewrite H; reflexivity. Qed.

Lemma backtrack_miss {R} (try : nat → option R) lo n :
  (∀ m, m ≤ n → try m = None) → backtrack try lo n = None.
Proof.
  induction n as [|n IH]; intros H; simpl.
  - rewrite (H 0); [reflexivity | lia].
  - rewrite (H (S n)) by lia.
    destruct (lo <=? n); [|reflexivity].
    apply IH. intros m Hm. apply H. lia.
Qed.

Lemma run_le cls s : run cls s ≤ length s.
Proof. induction s as [|c s IH]; simpl; [lia|]. destruct (cls c); simpl; lia. Qed.

Lemma run_drop_in cls s n :
  n < run cls s → ∃ c s', drop n s = c :: s' ∧ cls c = true.
Proof.
  revert n. induction s as [|c s IH]; simpl; intros n Hn; [lia|].
  destruct (cls c) eqn:E; [|lia].
  destruct n as [|n]; simpl; [eauto|].
  apply IH. lia.
Qed.

Lemma run_app_all cls a b :
  Forall (λ c, cls c = true) a → run cls (a ++ b) = length a + run cls b.
Proof.
  induction 1 as [|c a Hc _ IH]; simpl; [reflexivity|].
  rewrite Hc, IH. reflexivity.
Qed.

Lemma run_head_false cls c s : cls c = false → run cls (c :: s) = 0.
Proof. intros H. simpl. rewrite H. reflexivity. Qed.

Lemma hash_not_space c : cls_hash c = true → cls_space c = false.
Proof.
  unfold cls_hash, hash. intros H%N.eqb_eq. subst c. reflexivity.
Qed.

Lemma terminator_not_hash c : is_line_terminator c = true → cls_hash c = false.
Proof.
  intros H. destruct (cls_hash c) eqn:E; [|reflexivity].
  apply N.eqb_eq in E. subst c. discriminate H.
Qed.

(** What the backtracking search computes for [/^(#{1,6})\s+/m]. *)
Lemma exec_heading prev s :
  exec_at heading_re prev s =
  if heading_here prev s
  then Some (MatchResult (markers s + blanks s) [take (markers s) s])
  else None.
Proof.
  unfold heading_here, heading_re, blanks, markers.
  cbn [exec_at greedy].
  destruct (at_line_start true prev); [|reflexivity].
  cbn [andb].
  set (h := run cls_hash s).
  set (try := λ n : nat, _).
  assert (Htry_lt : ∀ n, n < h → try n = None).
  { intros n Hn. unfold try. cbn [exec_at greedy].
    destruct (run_drop_in cls_hash s n Hn) as (c & s' & -> & Hc).
    rewrite (run_head_false cls_space c s' (hash_not_space c Hc)).
    reflexivity. }
  assert (Htry_h : try h =
    if 1 <=? run cls_space (drop h s)
    then Some (MatchResult (h + run cls_space (drop h s)) [take h s])
    else None).
  { unfold try. cbn [exec_at greedy].
    destruct (run cls_space (drop h s)) as [|w] eqn:Ew; [reflexivity|].
    cbn [Nat.ltb Nat.leb].
    erewrite backtrack_hit; [|cbn [exec_at]; reflexivity].
    cbn [consumed captures app]. rewrite Nat.add_0_r. reflexivity. }
  destruct (Nat.min 6 h <? 1) eqn:E0.
  { apply Nat.ltb_lt in E0.
    assert (h = 0) as -> by lia. reflexivity. }
  apply Nat.ltb_ge in E0.
  assert ((1 <=? h) = true) as -> by (apply Nat.leb_le; lia).
  cbn [andb].
  destruct (h <=? 6) eqn:E6.
  - apply Nat.leb_le in E6.
    replace (Nat.min 6 h) with h by lia.
    cbn [andb].
    destruct (1 <=? run cls_space (drop h s)) eqn:Ew.
    + apply backtrack_hit. exact Htry_h.
    + apply backtrack_miss. intros m Hm.
      destruct (decide (m = h)) as [->|Hne]; [exact Htry_h|].
      apply Htry_lt. lia.
  - apply Nat.leb_gt in E6. cbn [andb].
    apply backtrack_miss. intros m Hm. apply Htry_lt. lia.
Qed.


Lemma run_app_stop cls a b :
  run cls a < length a → run cls (a ++ b) = run cls a.
Proof.
  induction a as [|c a IH]; simpl; [lia|].
  destruct (cls c); [|reflexivity].
  intros H. rewrite IH by lia. reflexivity.
Qed.

Lemma run_app_none cls a b :
  run cls b = 0 → run cls (a ++ b) = run cls a.
Proof.
  intros Hb. induction a as [|c a IH]; simpl; [exact Hb|].
  destruct (cls c); [|reflexivity]. rewrite IH. reflexivity.
Qed.

Lemma run_lt_length cls s c :
  last s = Some c → cls c = false → run cls s < length s.
Proof.
  induction s as [|x s IH]; [discriminate|].
  intros Hl Hc. simpl. destruct (cls x) eqn:Ex; [|lia].
  destruct s as [|y s].
  - simpl in Hl. injection Hl as ->. congruence.
  - specialize (IH Hl Hc). simpl in *. lia.
Qed.

Lemma markers_blanks_le s : markers s + blanks s ≤ length s.
Proof.
  unfold blanks, markers.
  pose proof (run_le cls_hash s).
  pose proof (run_le cls_space (drop (run cls_hash s) s)) as H2.
  rewrite length_drop in H2. lia.
Qed.

Lemma prev_after_cons prev c s k :
  k ≤ length s → prev_after (Some c) s k = prev_after prev (c :: s) (S k).
Proof.
  intros Hk. destruct k as [|j]; [reflexivity|].
  cbn [prev_after]. change ((c :: s) !! S j) with (s !! j).
  destruct (lookup_lt_is_Some_2 s j ltac:(lia)) as [x ->]. reflexivity.
Qed.

(** Dropping the characters of a match resumes the scan after it. *)
Lemma replace_from_skip p f s : ∀ prev n,
  n ≤ length s →
  replace_from p f prev s n = replace_from p f (prev_after prev s n) (drop n s) 0.
Proof.
  induction s as [|c s IH]; intros prev n Hn.
  - simpl in Hn. assert (n = 0) as -> by lia. reflexivity.
  - destruct n as [|k]; [reflexivity|].
    simpl in Hn. cbn [replace_from drop].
    rewrite IH by lia. rewrite (prev_after_cons prev) by lia. reflexivity.
Qed.

Lemma shift_from_nil l prev : shift_from l prev [] = [].
Proof.
  unfold shift_from. cbn [replace_from]. rewrite exec_heading.
  unfold heading_here. destruct (at_line_start true prev); reflexivity.
Qed.

Lemma shift_from_miss l prev c s :
  heading_here prev (c :: s) = false →
  shift_from l prev (c :: s) = c :: shift_from l (Some c) s.
Proof.
  intros H. unfold shift_from. cbn [replace_from].
  rewrite exec_heading, H. reflexivity.
Qed.

Lemma shift_from_hit l prev s :
  heading_here prev s = true →
  shift_from l prev s =
  shifted_marker l (take (markers s + blanks s) s) [take (markers s) s] ++
  shift_from l (prev_after prev s (markers s + blanks s))
    (drop (markers s + blanks s) s).
Proof.
  intros H. unfold shift_from.
  pose proof (markers_blanks_le s) as Hle.
  assert (1 ≤ markers s) as Hm.
  { unfold heading_here in H. apply andb_prop in H as [H _].
    apply andb_prop in H as [H _]. apply andb_prop in H as [_ H].
    apply Nat.leb_le in H. exact H. }
  destruct s as [|c s]; [cbv in Hm; lia|].
  cbn [replace_from]. rewrite exec_heading, H. cbn [consumed captures].
  destruct (markers (c :: s) + blanks (c :: s)) as [|k] eqn:Ek; [lia|].
  simpl in Hle.
  rewrite replace_from_skip by lia.
  rewrite (prev_after_cons prev) by lia. reflexivity.
Qed.

Lemma repeat_hash_int n : Js.repeat [hash] (Int n) = List.repeat hash n.
Proof.
  unfold Js.repeat. induction n as [|n IH]; simpl; [reflexivity|].
  rewrite IH. reflexivity.
Qed.

Lemma shifted_marker_int l m hs :
  shifted_marker (Int l) m [hs] =
  List.repeat hash (Nat.min (length hs + l) 6) ++ [space].
Proof.
  unfold shifted_marker, newLevel. cbn [hd Js.add Js.min].
  rewrite repeat_hash_int. reflexivity.
Qed.

Lemma Forall_hash_repeat h : Forall (λ c, cls_hash c = true) (List.repeat hash h).
Proof. induction h; simpl; constructor; [reflexivity|assumption]. Qed.

Lemma space_not_hash c : cls_space c = true → cls_hash c = false.
Proof.
  intros H. destruct (cls_hash c) eqn:E; [|reflexivity].
  rewrite (hash_not_space c E) in H. discriminate.
Qed.

Lemma markers_heading h ws rest :
  ws ≠ [] → Forall (λ c, cls_space c = true) ws →
  markers (List.repeat hash h ++ ws ++ rest) = h.
Proof.
  intros Hne Hws. unfold markers.
  rewrite run_app_all by apply Forall_hash_repeat.
  rewrite repeat_length.
  destruct ws as [|w ws]; [congruence|].
  inversion Hws; subst.
  cbn [app]. rewrite run_head_false by (apply space_not_hash; assumption).
  lia.
Qed.

Lemma drop_repeat_app {A} (x : A) h (t : list A) :
  drop h (List.repeat x h ++ t) = t.
Proof.
  rewrite <- (repeat_length x h) at 1. apply drop_app_length.
Qed.

Lemma blanks_heading h ws rest :
  ws ≠ [] → Forall (λ c, cls_space c = true) ws → run cls_space rest = 0 →
  blanks (List.repeat hash h ++ ws ++ rest) = length ws.
Proof.
  intros Hne Hws Hrest. unfold blanks.
  rewrite markers_heading by assumption.
  rewrite drop_repeat_app.
  rewrite run_app_all by assumption. lia.
Qed.

(** A heading at a line start: the markers are rewritten, the white space
    after them becomes one space and the scan resumes behind it. *)
Lemma shift_from_heading l prev h ws rest :
  at_line_start true prev = true → 1 ≤ h ≤ 6 →
  ws ≠ [] → Forall (λ c, cls_space c = true) ws → run cls_space rest = 0 →
  shift_from (Int l) prev (List.repeat hash h ++ ws ++ rest) =
  List.repeat hash (Nat.min (h + l) 6) ++ [space] ++
  shift_from (Int l) (last ws) rest.
Proof.
  intros Hp Hh Hne Hws Hrest.
  set (s := List.repeat hash h ++ ws ++ rest).
  pose proof (markers_heading h ws rest Hne Hws) as Hm.
  pose proof (blanks_heading h ws rest Hne Hws Hrest) as Hb.
  fold s in Hm, Hb.
  assert (length ws ≠ 0) as Hlen by (destruct ws; simpl; congruence).
  rewrite shift_from_hit.
  2:{ unfold heading_here. rewrite Hp, Hm, Hb.
      repeat (apply andb_true_intro; split); try reflexivity;
        apply Nat.leb_le; lia. }
  rewrite Hm, Hb, shifted_marker_int.
  assert (take h s = List.repeat hash h) as ->.
  { unfold s. rewrite <- (repeat_length hash h) at 1.
    apply take_app_length. }
  rewrite repeat_length.
  assert (drop (h + length ws) s = rest) as ->.
  { unfold s. rewrite <- drop_drop, drop_repeat_app. apply drop_app_length. }
  assert (prev_after prev s (h + length ws) = last ws) as ->.
  { destruct (h + length ws) as [|k] eqn:Ek; [lia|].
    cbn [prev_after]. unfold s.
    rewrite lookup_app_r by (rewrite repeat_length; lia).
    rewrite repeat_length.
    rewrite lookup_app_l by lia.
    rewrite last_lookup.
    replace (k - h) with (pred (length ws)) by lia.
    destruct (lookup_lt_is_Some_2 ws (pred (length ws)) ltac:(lia)) as [x Hx].
    rewrite Hx. reflexivity. }
  rewrite <- app_assoc. reflexivity.
Qed.


Lemma last_or_cons prev c s : last_or prev (c :: s) = last_or (Some c) s.
Proof.
  unfold last_or. destruct s as [|x s]; [reflexivity|].
  rewrite last_cons_cons. destruct (last (x :: s)) eqn:E; [reflexivity|].
  apply last_None in E. discriminate.
Qed.

Lemma last_or_app prev a b : last_or prev (a ++ b) = last_or (last_or prev a) b.
Proof.
  revert prev. induction a as [|c a IH]; intros prev; [reflexivity|].
  cbn [app]. rewrite !last_or_cons. apply IH.
Qed.

Lemma prev_after_take prev s n :
  n ≤ length s → prev_after prev s n = last_or prev (take n s).
Proof.
  intros Hn. destruct n as [|k]; [destruct s; reflexivity|].
  cbn [prev_after]. unfold last_or.
  rewrite last_lookup, length_take_le by lia. cbn [pred].
  rewrite lookup_take_lt by lia. reflexivity.
Qed.

(** Away from a line start nothing matches: the text is copied up to the
    next line terminator. *)
Lemma shift_from_copy l s X : ∀ prev,
  at_line_start true prev = false → no_terminator s →
  shift_from l prev (s ++ X) = s ++ shift_from l (last_or prev s) X.
Proof.
  induction s as [|c s IH]; intros prev Hp Hs; [reflexivity|].
  inversion Hs as [|? ? Hc Hs']; subst.
  cbn [app]. rewrite shift_from_miss.
  2:{ unfold heading_here. rewrite Hp. reflexivity. }
  rewrite IH by assumption. rewrite last_or_cons. reflexivity.
Qed.

Lemma shift_from_terminator l prev t X :
  is_line_terminator t = true →
  shift_from l prev (t :: X) = t :: shift_from l (Some t) X.
Proof.
  intros Ht. apply shift_from_miss. unfold heading_here, markers.
  rewrite run_head_false by (apply terminator_not_hash; assumption).
  destruct (at_line_start true prev); reflexivity.
Qed.

Lemma last_or_not_start prev s :
  s ≠ [] → no_terminator s → at_line_start true (last_or prev s) = false.
Proof.
  intros Hne Hs. unfold last_or.
  destruct (last s) as [c|] eqn:E.
  - apply last_Some_elem_of in E.
    unfold no_terminator in Hs. rewrite Forall_forall in Hs. simpl. apply Hs. exact E.
  - apply last_None in E. congruence.
Qed.

(** One line at a line start, whatever follows it, provided what follows
    does not change what the pattern sees of the line. *)
Lemma shift_from_line l prev line X :
  at_line_start true prev = true → no_terminator line →
  markers (line ++ X) = markers line → blanks (line ++ X) = blanks line →
  shift_from (Int l) prev (line ++ X) =
  shift_line l line ++ shift_from (Int l) (last_or prev line) X.
Proof.
  intros Hp Hline Hm Hb. unfold shift_line, is_heading_line.
  pose proof (markers_blanks_le line) as Hle.
  destruct ((1 <=? markers line) && (markers line <=? 6) && (1 <=? blanks line))
    eqn:Hcond.
  - assert (1 ≤ markers line) as H1.
    { apply andb_prop in Hcond as [Hcond _]. apply andb_prop in Hcond as [H _].
      apply Nat.leb_le in H. exact H. }
    rewrite shift_from_hit.
    2:{ unfold heading_here. rewrite Hp, Hm, Hb. exact Hcond. }
    rewrite Hm, Hb, shifted_marker_int.
    rewrite (take_app_le line X (markers line)) by lia.
    rewrite length_take_le by lia.
    rewrite drop_app_le by lia.
    rewrite prev_after_take by (rewrite length_app; lia).
    rewrite take_app_le by lia.
    rewrite shift_from_copy.
    2:{ apply last_or_not_start.
        - intros E. apply (f_equal length) in E.
          rewrite length_take_le in E by lia. simpl in E. lia.
        - apply Forall_take. exact Hline. }
    2:{ apply Forall_drop. exact Hline. }
    rewrite <- last_or_app, take_drop.
    rewrite <- !app_assoc. reflexivity.
  - destruct line as [|c line]; [reflexivity|].
    inversion Hline as [|? ? Hc Hline']; subst.
    cbn [app]. rewrite shift_from_miss.
    2:{ unfold heading_here. change (c :: line ++ X) with ((c :: line) ++ X).
        rewrite Hm, Hb, Hp. exact Hcond. }
    rewrite shift_from_copy by assumption.
    rewrite last_or_cons. reflexivity.
Qed.

Lemma markers_before_terminator line t rest :
  is_line_terminator t = true →
  markers (line ++ t :: rest) = markers line.
Proof.
  intros Ht. unfold markers. apply run_app_none.
  apply run_head_false, terminator_not_hash, Ht.
Qed.

Lemma blanks_before_terminator line t rest :
  is_line_terminator t = true →
  markers line + blanks line < length line →
  blanks (line ++ t :: rest) = blanks line.
Proof.
  intros Ht Hlt. unfold blanks in *.
  rewrite markers_before_terminator by assumption.
  pose proof (run_le cls_hash line) as Hm. fold (markers line) in Hm.
  rewrite drop_app_le by lia.
  apply run_app_stop. rewrite length_drop. lia.
Qed.

(** A titled line followed by its terminator. *)
Lemma shift_from_titled l prev line t rest :
  at_line_start true prev = true → titled_line line →
  is_line_terminator t = true →
  shift_from (Int l) prev (line ++ t :: rest) =
  shift_line l line ++ t :: shift_from (Int l) (Some t) rest.
Proof.
  intros Hp [Hline Htitle] Ht.
  destruct (decide (1 ≤ markers line ≤ 6)) as [Hh|Hh].
  - rewrite shift_from_line; try assumption.
    + rewrite shift_from_terminator by assumption. reflexivity.
    + apply markers_before_terminator. exact Ht.
    + apply blanks_before_terminator; auto.
  - (* no heading here, whatever the white space after the markers *)
    assert (is_heading_line line = false) as Hno.
    { unfold is_heading_line.
      destruct (1 <=? markers line) eqn:E1; [|reflexivity].
      destruct (markers line <=? 6) eqn:E6; [|reflexivity].
      apply Nat.leb_le in E1, E6. lia. }
    unfold shift_line. rewrite Hno.
    destruct line as [|c line].
    { cbn [app]. apply shift_from_terminator. exact Ht. }
    inversion Hline as [|? ? Hc Hline']; subst.
    cbn [app]. rewrite shift_from_miss.
    2:{ unfold heading_here. change (c :: line ++ t :: rest) with ((c :: line) ++ t :: rest).
        rewrite markers_before_terminator by assumption.
        destruct (at_line_start true prev); [|reflexivity]. cbn [andb].
        destruct (1 <=? markers (c :: line)) eqn:E1; [|reflexivity].
        destruct (markers (c :: line) <=? 6) eqn:E6; [|reflexivity].
        apply Nat.leb_le in E1, E6. lia. }
    rewrite shift_from_copy by assumption.
    rewrite shift_from_terminator by assumption. reflexivity.
Qed.

(** Appending text that begins with something that is not white space,
    after text that does not end with a marker, does not change how the
    text before it is rewritten. *)
Lemma replace_from_app l X pre : ∀ prev skip,
  skip ≤ length pre →
  (∀ c, last pre = Some c → cls_hash c = false) →
  run cls_space X = 0 →
  replace_from heading_re (shifted_marker l) prev (pre ++ X) skip =
  replace_from heading_re (shifted_marker l) prev pre skip ++
  shift_from l (last_or prev pre) X.
Proof.
  induction pre as [|c pre IH]; intros prev skip Hskip Hlast HX.
  - simpl in Hskip. assert (skip = 0) as -> by lia.
    change (replace_from heading_re (shifted_marker l) prev [] 0)
      with (shift_from l prev []).
    rewrite shift_from_nil. reflexivity.
  - assert (∀ x, last pre = Some x → cls_hash x = false) as Hlast'.
    { intros x Hx. apply Hlast. destruct pre; [discriminate|exact Hx]. }
    rewrite last_or_cons. simpl in Hskip.
    destruct skip as [|k].
    + assert (markers ((c :: pre) ++ X) = markers (c :: pre)) as Hm.
      { unfold markers. apply run_app_stop.
        destruct (last (c :: pre)) as [x|] eqn:Ex.
        - eapply run_lt_length; eauto.
        - apply last_None in Ex. discriminate. }
      assert (blanks ((c :: pre) ++ X) = blanks (c :: pre)) as Hb.
      { unfold blanks. rewrite Hm.
        pose proof (run_le cls_hash (c :: pre)) as Hle.
        rewrite drop_app_le by exact Hle.
        apply run_app_none. exact HX. }
      pose proof (markers_blanks_le (c :: pre)) as Hle.
      cbn [app replace_from]. rewrite !exec_heading.
      change (c :: pre ++ X) with ((c :: pre) ++ X).
      unfold heading_here. rewrite Hm, Hb.
      rewrite (take_app_le (c :: pre) X (markers (c :: pre))) by lia.
      destruct (at_line_start true prev && (1 <=? markers (c :: pre)) &&
                (markers (c :: pre) <=? 6) && (1 <=? blanks (c :: pre))).
      * cbn [consumed captures].
        destruct (markers (c :: pre) + blanks (c :: pre)) as [|k] eqn:Ek.
        -- rewrite IH by (auto; lia).
           rewrite <- !app_assoc. reflexivity.
        -- simpl in Hle. rewrite IH by (auto; lia).
           rewrite <- !app_assoc. reflexivity.
      * cbn [app]. rewrite IH by (auto; lia). reflexivity.
    + cbn [app replace_from]. apply IH; auto. lia.
Qed.

Lemma shift_from_app l prev pre X :
  (∀ c, last pre = Some c → cls_hash c = false) →
  run cls_space X = 0 →
  shift_from l prev (pre ++ X) =
  shift_from l prev pre ++ shift_from l (last_or prev pre) X.
Proof. intros. apply replace_from_app; auto. lia. Qed.

End HeadingPattern.

(** ** The ancestor walk *)

Section AncestorWalk.

Import Js.

Lemma test_from_anchored p c s : test_from (Bol false :: p) (Some c) s = false.
Proof. revert c. induction s as [|x s IH]; intros c; simpl; auto. Qed.

(** The test of the loop body and the level it returns, against the
    level the tag name stands for. *)
Lemma heading_tag_check tag :
  (if truthy_str tag && test heading_tag_re tag
   then Some (parseInt (charAt tag 1)) else None) =
  Int <$> heading_level tag.
Proof.
  destruct tag as [|h [|d [|x tag]]]; try reflexivity.
  - unfold test, heading_tag_re.
    cbn -[N.eqb N.leb]. destruct (72 =? h)%N; cbn -[N.eqb N.leb]. all: try reflexivity.
  - unfold test, heading_tag_re, heading_level.
    cbn -[N.eqb N.leb N.sub N.to_nat digit].
    rewrite (N.eqb_sym h 72).
    destruct (72 =? h)%N; [|reflexivity].
    destruct (72 =? d)%N; cbn -[N.eqb N.leb N.sub N.to_nat digit].
    all: destruct (49 <=? d)%N eqn:E1; [|reflexivity].
    all: destruct (d <=? 54)%N eqn:E2; [|reflexivity].
    all: cbn -[N.eqb N.leb N.sub N.to_nat digit].
    all: apply N.leb_le in E1, E2.
    all: assert (d = 49 ∨ d = 50 ∨ d = 51 ∨ d = 52 ∨ d = 53 ∨ d = 54)%N
      as Hd by lia.
    all: destruct Hd as [->|[->|[->|[->|[->| ->]]]]]; reflexivity.
  - unfold test, heading_tag_re.
    cbn -[N.eqb N.leb N.sub N.to_nat digit].
    rewrite test_from_anchored.
    destruct (72 =? h)%N; [|reflexivity].
    destruct (72 =? d)%N; cbn -[N.eqb N.leb N.sub N.to_nat digit].
    all: destruct ((49 <=? d)%N && (d <=? 54)%N); cbn -[N.eqb N.leb N.sub N.to_nat digit]; try reflexivity.
    all: destruct ((49 <=? x)%N && (x <=? 54)%N); reflexivity.
Qed.

Lemma heading_level_range tag l : heading_level tag = Some l → 1 ≤ l ≤ 6.
Proof.
  destruct tag as [|h [|d [|x tag]]]; try discriminate.
  unfold heading_level.
  destruct (N.eqb h 72); [|discriminate].
  destruct (N.leb 49 d) eqn:E1; [|discriminate].
  destruct (N.leb d 54) eqn:E2; [|discriminate].
  cbn [andb]. intros [= <-].
  apply N.leb_le in E1, E2. lia.
Qed.

Lemma parent_walk_step bound d n :
  parent_walk (S bound) d (Some n) =
  match heading_level (tagName (d !!! n)) with
  | Some l => Some (Some (Int l))
  | None => parent_walk bound d (parentElement (d !!! n))
  end.
Proof.
  cbn [parent_walk].
  pose proof (heading_tag_check (tagName (d !!! n))) as H.
  destruct (truthy_str (tagName (d !!! n)) &&
            test heading_tag_re (tagName (d !!! n)));
    destruct (heading_level (tagName (d !!! n))); simpl in H; congruence.
Qed.

(** With a bound above the length of the chain the walk returns, and it
    returns the level of the first heading of the chain. *)
Lemma parent_walk_chain d o l :
  ancestors d o l → ∀ bound, length l < bound →
  parent_walk bound d o = Some (Int <$> nearest_heading d l).
Proof.
  induction 1 as [|n l Hanc IH]; intros bound Hb.
  - destruct bound; [simpl in Hb; lia|]. reflexivity.
  - destruct bound as [|bound]; [lia|].
    rewrite parent_walk_step. cbn [nearest_heading].
    destruct (heading_level (tagName (d !!! n))); [reflexivity|].
    apply IH. simpl in Hb. lia.
Qed.

Lemma parent_walk_range d : ∀ bound o b,
  parent_walk bound d o = Some (Some b) → ∃ l, b = Int l ∧ 1 ≤ l ≤ 6.
Proof.
  induction bound as [|bound IH]; intros o b H; [discriminate|].
  destruct o as [n|]; [|discriminate].
  rewrite parent_walk_step in H.
  destruct (heading_level (tagName (d !!! n))) as [l|] eqn:E.
  - injection H as <-. exists l. split; [reflexivity|].
    eapply heading_level_range; eauto.
  - eapply IH; eauto.
Qed.

(** *** Parent links that reach the root visit each node once *)

Lemma ancestors_functional d o l1 :
  ancestors d o l1 → ∀ l2, ancestors d o l2 → l1 = l2.
Proof.
  induction 1 as [|n l Hanc IH]; intros l2 H2; inversion H2; subst.
  - reflexivity.
  - f_equal. apply IH. assumption.
Qed.

Lemma ancestors_suffix d l1 : ∀ o n l2,
  ancestors d o (l1 ++ n :: l2) → ancestors d (Some n) (n :: l2).
Proof.
  induction l1 as [|x l1 IH]; intros o n l2 H.
  - inversion H; subst. exact H.
  - inversion H; subst. eapply IH; eauto.
Qed.

Lemma ancestors_NoDup d o l : ancestors d o l → NoDup l.
Proof.
  induction 1 as [|n l Hanc IH]; constructor; [|exact IH].
  intros Hin. apply list_elem_of_split in Hin as (l1 & l2 & ->).
  pose proof (ancestors_suffix _ _ _ _ _ Hanc) as Hsuf.
  pose proof (ancestors_functional _ _ _ (ancestors_step _ _ _ Hanc) _ Hsuf) as E.
  apply (f_equal length) in E. cbn [length] in E.
  rewrite length_app in E. cbn [length] in E. lia.
Qed.

Lemma ancestors_inner_dom d o l l1 n x l2 :
  ancestors d o l → l = l1 ++ n :: x :: l2 → n ∈ dom d.
Proof.
  intros H ->. apply ancestors_suffix in H.
  match type of H with ancestors _ _ ?l => remember l as l0 eqn:El end.
  destruct H as [|k l Hp]; [discriminate|]. injection El as -> ->.
  apply elem_of_dom. destruct (d !! n) as [e|] eqn:E; [eauto|].
  rewrite lookup_total_alt, E in Hp. inversion Hp.
Qed.

Lemma ancestors_length d o l : ancestors d o l → length l ≤ S (size d).
Proof.
  intros H.
  destruct (decide (l = [])) as [->|Hne]; [simpl; lia|].
  destruct (proj2 (last_is_Some l) Hne) as [x Hx].
  apply last_Some in Hx as [l' ->].
  pose proof (ancestors_NoDup _ _ _ H) as Hnd.
  apply NoDup_app in Hnd as (Hnd & _ & _).
  assert (l' ⊆+ elements (dom d)) as Hsub.
  { apply NoDup_submseteq; [exact Hnd|].
    intros n Hn. apply elem_of_elements.
    apply list_elem_of_split in Hn as (l1 & l2 & ->).
    destruct l2 as [|y l2].
    - eapply (ancestors_inner_dom _ _ _ l1 n x []); eauto.
      rewrite <- app_assoc. reflexivity.
    - eapply (ancestors_inner_dom _ _ _ l1 n y (l2 ++ [x])); eauto.
      rewrite <- app_assoc. reflexivity. }
  apply submseteq_length in Hsub.
  rewrite length_app. cbn [length].
  change (length (elements (dom d))) with (size (dom d)) in Hsub.
  rewrite size_dom in Hsub. lia.
Qed.

Lemma nearest_heading_Some d chain l :
  nearest_heading d chain = Some l →
  ∃ before n after,
    chain = before ++ n :: after ∧
    heading_level (tagName (d !!! n)) = Some l ∧
    Forall (λ k, heading_level (tagName (d !!! k)) = None) before.
Proof.
  induction chain as [|n chain IH]; [discriminate|].
  cbn [nearest_heading].
  destruct (heading_level (tagName (d !!! n))) as [l'|] eqn:E.
  - intros [= ->]. exists [], n, chain. auto.
  - intros H. destruct (IH H) as (b & k & a & -> & Hk & Hb).
    exists (n :: b), k, a. auto.
Qed.

Lemma nearest_heading_None d chain :
  nearest_heading d chain = None →
  Forall (λ k, heading_level (tagName (d !!! k)) = None) chain.
Proof.
  induction chain as [|n chain IH]; [constructor|].
  cbn [nearest_heading].
  destruct (heading_level (tagName (d !!! n))) eqn:E; [discriminate|].
  auto.
Qed.

End AncestorWalk.

(** ** The heading shifter and the ancestor locator *)

Section HeadingClaims.

Import Js.

(** C3. The heading shifter is a function of the text and of the base
    level alone: [shiftHeadings] returns [shift b content], where [b] is
    the level the ancestor walk found, and leaves the world as it was.
    Without a base level the text is returned unchanged. With the base
    level [l], wherever a line starts (at the beginning of the text or
    after a line terminator) with [h] markers, [1 <= h <= 6], followed by
    white space, the output has [min (h + l) 6] markers there; what
    precedes is rewritten as it would be on its own. In particular
    [shift("###### x", 3) = "###### x"], [shift("# x", 2) = "### x"] and
    [shift("## x", none) = "## x"]. *)
Theorem shift_function_of_text_and_level :
  (∀ w t content b,
     getParentHeaderLevel (nodes w) t = Some b →
     shiftHeadings content t w = (w, Ok (shift b content))) ∧
  (∀ content, shift None content = content) ∧
  (∀ l pre h ws rest,
     (∀ c, last pre = Some c → is_line_terminator c = true) →
     1 ≤ h ≤ 6 →
     ws ≠ [] → Forall (λ c, cls_space c = true) ws →
     run cls_space rest = 0 →
     shift (Some (Int l)) (pre ++ List.repeat hash h ++ ws ++ rest) =
     shift (Some (Int l)) pre ++
     List.repeat hash (Nat.min (h + l) 6) ++ [space] ++
     shift_from (Int l) (last ws) rest) ∧
  shift (Some (Int 3)) (units "###### x") = units "###### x" ∧
  shift (Some (Int 2)) (units "# x") = units "### x" ∧
  shift None (units "## x") = units "## x".
Proof.
  split; [|split; [|split; [|repeat split; reflexivity]]].
  - intros w t content b Hb.
    unfold shiftHeadings, mbind, M_bind, bind, gets. rewrite Hb. reflexivity.
  - reflexivity.
  - intros l pre h ws rest Hpre Hh Hne Hws Hrest.
    cbn [shift]. unfold shift_text, replace_global.
    change (replace_from heading_re (shifted_marker (Int l)) None ?s 0)
      with (shift_from (Int l) None s).
    rewrite shift_from_app.
    + rewrite shift_from_heading; auto.
      unfold last_or. destruct (last pre) as [c|] eqn:E; [|reflexivity].
      simpl. apply Hpre. reflexivity.
    + intros c Hc. apply terminator_not_hash, Hpre, Hc.
    + destruct h as [|h]; [lia|]. reflexivity.
Qed.

Lemma shift_function_of_text_and_level_witness :
  shift (Some (Int 2)) (units "intro" ++ [10%N] ++ units "#  title") =
  units "intro" ++ [10%N] ++ units "### title".
Proof.
  pose proof (proj1 (proj2 (proj2 shift_function_of_text_and_level))
                2 (units "intro" ++ [10%N]) 1 (units "  ") (units "title")) as H.
  apply H.
  - intros c [= <-]. reflexivity.
  - lia.
  - discriminate.
  - repeat constructor.
  - reflexivity.
Defined.

(** C4. For a marker (an element the selector [span.internal-embed]
    matches) whose [parentElement] links reach the root through [chain],
    the ancestor locator returns, and returns the level, between 1 and 6,
    of the first heading element of [chain], the nearest ancestor that is
    a heading, or [null] when no node of [chain] is a heading. The marker
    itself never counts. The locator is a function of the document: it
    yields no new document. *)
Theorem getParentHeaderLevel_nearest_ancestor d m chain :
  Dom.is_internal_embed (d !!! m) = true →
  ancestors d (parentElement (d !!! m)) chain →
  getParentHeaderLevel d m = Some (Int <$> nearest_heading d chain) ∧
  (∀ l, nearest_heading d chain = Some l →
     1 ≤ l ≤ 6 ∧
     ∃ before n after,
       chain = before ++ n :: after ∧
       heading_level (tagName (d !!! n)) = Some l ∧
       Forall (λ k, heading_level (tagName (d !!! k)) = None) before) ∧
  (nearest_heading d chain = None →
     Forall (λ k, heading_level (tagName (d !!! k)) = None) chain).
Proof.
  intros Hm Hanc. split; [|split].
  - unfold getParentHeaderLevel.
    pose proof (ancestors_length _ _ _ (ancestors_step _ _ _ Hanc)) as Hlen.
    rewrite (parent_walk_chain _ _ _ (ancestors_step _ _ _ Hanc))
      by (cbn [length] in *; lia).
    cbn [nearest_heading].
    unfold Dom.is_internal_embed in Hm.
    apply andb_prop in Hm as [Htag _]. apply bool_decide_eq_true in Htag.
    rewrite Htag. reflexivity.
  - intros l Hl.
    destruct (nearest_heading_Some _ _ _ Hl) as (b & n & a & -> & Hn & Hb).
    split; [eapply heading_level_range; eauto|].
    exists b, n, a. auto.
  - apply nearest_heading_None.
Qed.

Lemma getParentHeaderLevel_nearest_ancestor_witness :
  getParentHeaderLevel nested_under_h2 4%positive = Some (Some (Int 2)).
Proof.
  refine (proj1 (getParentHeaderLevel_nearest_ancestor nested_under_h2 4%positive
                   [3; 2; 1]%positive _ _)).
  - reflexivity.
  - apply (ancestors_step nested_under_h2 3%positive).
    apply (ancestors_step nested_under_h2 2%positive).
    apply (ancestors_step nested_under_h2 1%positive).
    apply ancestors_root.
Defined.

(** The walk starts at the node it is given: on a heading element it
    returns the level of that element. *)
Remark getParentHeaderLevel_of_heading :
  getParentHeaderLevel nested_under_h2 1%positive = Some (Some (Int 2)).
Proof. reflexivity. Qed.




(** A heading without a title loses its line terminator: the pattern's
    [\s+] runs over it, and the next line is joined to the heading. *)
Remark shift_joins_lines :
  shift (Some (Int 1)) (units "#" ++ [10%N] ++ units "text") = units "## text".
Proof. reflexivity. Qed.

(** C10. A base level the ancestor locator returns is an integer [l]
    with [1 <= l <= 6], and for a heading of [h] markers,
    [1 <= h <= 6], the new level is [min (h + l) 6], which is at least
    [h]: at a line start the output carries that many markers. *)
Theorem shift_never_decreases_level d t b :
  getParentHeaderLevel d t = Some (Some b) →
  ∃ l, b = Int l ∧ 1 ≤ l ≤ 6 ∧
    ∀ h, 1 ≤ h ≤ 6 →
      newLevel (List.repeat hash h) b = Int (Nat.min (h + l) 6) ∧
      h ≤ Nat.min (h + l) 6 ∧
      ∀ prev ws rest,
        at_line_start true prev = true →
        ws ≠ [] → Forall (λ c, cls_space c = true) ws →
        run cls_space rest = 0 →
        shift_from b prev (List.repeat hash h ++ ws ++ rest) =
        List.repeat hash (Nat.min (h + l) 6) ++ [space] ++
        shift_from b (last ws) rest.
Proof.
  intros H. apply parent_walk_range in H as (l & -> & Hl).
  exists l. split; [reflexivity|]. split; [exact Hl|].
  intros h Hh. split; [|split].
  - unfold newLevel. rewrite repeat_length. reflexivity.
  - lia.
  - intros prev ws rest Hp Hne Hws Hrest.
    apply shift_from_heading; auto.
Qed.

Lemma shift_never_decreases_level_witness :
  newLevel (List.repeat hash 5) (Int 2) = Int 6 ∧ 5 ≤ 6.
Proof.
  destruct (shift_never_decreases_level nested_under_h2 4%positive (Int 2)
              eq_refl) as (l & E & Hl & H).
  injection E as <-.
  destruct (H 5 ltac:(lia)) as (H1 & H2 & _).
  split; [exact H1|exact H2].
Defined.

End HeadingClaims.

(** ** The post-processor *)

Ltac no_run := let H := fresh in intro H; discriminate H.

Ltac red_m :=
  cbn [nodes settings embeddedFiles trace set_nodes set_embeddedFiles
       set_settings fst snd id Dom.createDiv].

Ltac unfold_m :=
  cbv [mbind M_bind mret M_ret bind ret gets modify emit alloc await throw
       diverge set_nodes set_embeddedFiles set_settings id Dom.createDiv];
  red_m.

Lemma guard_released (p : jsstr) (s : gset jsstr) :
  p ∉ s → ({[p]} ∪ s) ∖ {[p]} = s.
Proof.
  intros Hp. apply set_eq. intros x.
  rewrite elem_of_difference, elem_of_union, !elem_of_singleton.
  split.
  - intros [[->|Hx] Hne]; [congruence|exact Hx].
  - intros Hx. split; [right; exact Hx|]. intros ->. exact (Hp Hx).
Qed.

Section Steps.

Variable vault : Vault.
Variable render : jsstr → node → jsstr → Ctx → M unit.


Lemma process_marker_embed ctx t w p f :
  shouldProcess w t = true →
  Dom.getAttribute_src (nodes w) t = Some p →
  Js.truthy_str p = true →
  getAbstractFileByPath vault p = Some f →
  is_file f = true →
  process_marker vault render ctx t w = embed vault render t p f ctx w.
Proof.
  intros H1 H2 H3 H4 H5. unfold process_marker, resolve. unfold_m.
  rewrite H1, H2, H3, H4, H5. reflexivity.
Qed.

Lemma embed_inflight ctx t w p f :
  p ∈ embeddedFiles w →
  embed vault render t p f ctx w = warn_loop t p w.
Proof.
  intros H. unfold embed. unfold_m.
  rewrite bool_decide_eq_true_2 by assumption. reflexivity.
Qed.

Lemma embed_fresh ctx t w p f :
  p ∉ embeddedFiles w →
  embed vault render t p f ctx w = enter vault render t p f ctx w.
Proof.
  intros H. unfold embed. unfold_m.
  rewrite bool_decide_eq_false_2 by assumption. reflexivity.
Qed.

Lemma warn_loop_eq t p w :
  warn_loop t p w =
  (mkWorld
     (Dom.replaceWith t (fresh (dom (nodes w)))
        (<[fresh (dom (nodes w)) :=
             mkElement (units "DIV") None [units "embed-warning"] (loop_text p)
               [] None []]>
           (nodes w)))
     (settings w) (embeddedFiles w)
     (trace w ++ [ConsoleWarn (loop_message p)]),
   Ok tt).
Proof. reflexivity. Qed.

(** A rejected read leaves the file in the set. *)
Lemma enter_read_fails ctx t w p f e :
  read vault f = inl e →
  enter vault render t p f ctx w =
  (mkWorld (nodes w) (settings w) ({[p]} ∪ embeddedFiles w)
     (trace w ++ [VaultRead f]), Throw e).
Proof.
  intros H. unfold enter. unfold_m. rewrite H. reflexivity.
Qed.

Hypothesis render_keeps_guard :
  ∀ content container path ctx, keeps_guard (render content container path ctx).

Lemma enter_ok ctx t w w' p f :
  enter vault render t p f ctx w = (w', Ok tt) →
  embeddedFiles w' = ({[p]} ∪ embeddedFiles w) ∖ {[p]} ∧
  settings w' = settings w.
Proof.
  unfold enter, shiftHeadings. unfold_m.
  destruct (read vault f) as [e|content]; [no_run|]. unfold_m.
  destruct (Js.truthy (settings w !! key_shiftHeadings)).
  - red_m. destruct (getParentHeaderLevel (nodes w) t) as [lvl|]; [|no_run].
    red_m.
    match goal with |- context [render ?c ?n ?q ?x ?v] =>
      destruct (render c n q x v) as [w3 [[]|e|]] eqn:Er end; try no_run.
    intros [= <-]. red_m.
    apply render_keeps_guard in Er as [-> ->]. auto.
  - red_m.
    match goal with |- context [render ?c ?n ?q ?x ?v] =>
      destruct (render c n q x v) as [w3 [[]|e|]] eqn:Er end; try no_run.
    intros [= <-]. red_m.
    apply render_keeps_guard in Er as [-> ->]. auto.
Qed.

Lemma process_marker_keeps_guard ctx t :
  keeps_guard (process_marker vault render ctx t).
Proof.
  intros w w'. unfold process_marker, resolve. unfold_m.
  destruct (shouldProcess w t); [|intros [= <-]; auto].
  destruct (Dom.getAttribute_src (nodes w) t) as [p|]; [|intros [= <-]; auto].
  destruct (Js.truthy_str p); [|intros [= <-]; auto].
  destruct (getAbstractFileByPath vault p) as [f|]; [|intros [= <-]; auto].
  destruct (is_file f); [|intros [= <-]; auto].
  destruct (decide (p ∈ embeddedFiles w)) as [Hin|Hout].
  - rewrite embed_inflight by assumption. rewrite warn_loop_eq.
    intros [= <-]. auto.
  - rewrite embed_fresh by assumption. intros H.
    apply enter_ok in H as [-> ->]. split; [|reflexivity].
    apply guard_released. exact Hout.
Qed.

Lemma for_of_keeps_guard ctx ts :
  keeps_guard (for_of ts (process_marker vault render ctx)).
Proof.
  induction ts as [|t ts IH]; intros w w'.
  - intros [= <-]. auto.
  - cbn [for_of]. unfold_m.
    destruct (process_marker vault render ctx t w) as [w1 [[]|e|]] eqn:E1;
      try no_run.
    intros H. apply IH in H as [-> ->].
    apply process_marker_keeps_guard in E1. exact E1.
Qed.

Lemma postProcessor_keeps_guard el ctx :
  keeps_guard (postProcessor vault render el ctx).
Proof.
  intros w w'. unfold postProcessor. unfold_m.
  apply for_of_keeps_guard.
Qed.

End Steps.

Lemma host_render_keeps_guard host pp :
  (∀ el ctx, keeps_guard (pp el ctx)) →
  ∀ content container path ctx,
    keeps_guard (host_render host pp content container path ctx).
Proof.
  intros Hpp content container path ctx w w'.
  unfold host_render. unfold_m.
  destruct (build host content path container (nodes w)) as [e|d']; [no_run|].
  intros H. apply Hpp in H as [-> ->]. auto.
Qed.

(** A pass that returns normally leaves the set of files being embedded
    as it found it, however deep the renders nest. *)
Lemma pipeline_keeps_guard vault host depth :
  ∀ el ctx, keeps_guard (pipeline vault host depth el ctx).
Proof.
  induction depth as [|depth IH]; intros el ctx.
  - intros w w'. no_run.
  - cbn [pipeline]. apply postProcessor_keeps_guard.
    apply host_render_keeps_guard. exact IH.
Qed.

(** *** Replacing a node by a new [div] *)

Lemma present_of_parent (d : DOM) n p :
  parentElement (d !!! n) = Some p → is_Some (d !! n).
Proof.
  rewrite lookup_total_alt. destruct (d !! n); [eauto|discriminate].
Qed.

Lemma fresh_absent (d : DOM) n : is_Some (d !! n) → n ≠ fresh (dom d).
Proof.
  intros Hn ->. apply elem_of_dom in Hn. exact (is_fresh (dom d) Hn).
Qed.

Lemma replace_child_first old new before after :
  old ∉ before →
  Dom.replace_child old new (before ++ old :: after) = before ++ new :: after.
Proof.
  induction before as [|c before IH]; intros Hout; cbn [Dom.replace_child app].
  - rewrite bool_decide_eq_true_2 by reflexivity. reflexivity.
  - rewrite bool_decide_eq_false_2, IH; [reflexivity| |].
    + intros H. apply Hout. right. exact H.
    + intros ->. apply Hout. left.
Qed.

Lemma replaceWith_new_div (d : DOM) old par e :
  parentElement (d !!! old) = Some par → is_Some (d !! par) →
  parentElement e = None →
  let new := fresh (dom d) in
  let d' := Dom.replaceWith old new (<[new := e]> d) in
  d' !!! new = Dom.with_parent e (Some par) ∧
  childElements (d' !!! par) =
    Dom.replace_child old new (childElements (d !!! par)) ∧
  parentElement (d' !!! old) = None ∧
  (∀ n, n ≠ old → n ≠ new → n ≠ par → d' !! n = d !! n).
Proof.
  intros Hold Hpar He new d'.
  assert (old ≠ new) as Hon by (eapply fresh_absent, present_of_parent; eauto).
  assert (par ≠ new) as Hpn by (apply fresh_absent; assumption).
  subst d'. unfold Dom.replaceWith, Dom.detach.
  rewrite (lookup_total_insert_ne d new old) by congruence.
  rewrite Hold.
  rewrite (lookup_total_insert_eq d new). rewrite He.
  rewrite (lookup_total_insert_ne d new par) by congruence.
  set (d2 := <[par := _]> (<[new := e]> d)).
  assert (d2 !!! new = e) as E2.
  { unfold d2. rewrite lookup_total_insert_ne by congruence.
    apply lookup_total_insert_eq. }
  rewrite E2.
  set (d3 := <[new := _]> d2).
  split; [|split; [|split]].
  - rewrite lookup_total_insert_ne by congruence.
    unfold d3. apply lookup_total_insert_eq.
  - destruct (decide (par = old)) as [->|Hpo].
    + rewrite lookup_total_insert_eq. cbn [Dom.with_parent childElements].
      unfold d3. rewrite lookup_total_insert_ne by congruence.
      unfold d2. rewrite lookup_total_insert_eq. reflexivity.
    + rewrite lookup_total_insert_ne by congruence.
      unfold d3. rewrite lookup_total_insert_ne by congruence.
      unfold d2. rewrite lookup_total_insert_eq. reflexivity.
  - rewrite lookup_total_insert_eq. reflexivity.
  - intros n H1 H2 H3.
    rewrite lookup_insert_ne by congruence.
    unfold d3. rewrite lookup_insert_ne by congruence.
    unfold d2. rewrite !lookup_insert_ne by congruence. reflexivity.
Qed.

Lemma replaceWith_no_parent (d : DOM) old e :
  parentElement (d !!! old) = None → is_Some (d !! old) →
  let new := fresh (dom d) in
  Dom.replaceWith old new (<[new := e]> d) = <[new := e]> d.
Proof.
  intros Hold Hex new.
  assert (old ≠ new) as Hon by (apply fresh_absent; assumption).
  unfold Dom.replaceWith.
  rewrite (lookup_total_insert_ne d new old) by congruence.
  rewrite Hold. reflexivity.
Qed.

(** *** The trace only grows *)

Section Traces.

Variable vault : Vault.
Variable render : jsstr → node → jsstr → Ctx → M unit.

Hypothesis render_extends_trace :
  ∀ content container path ctx,
    extends_trace (render content container path ctx).

(** Entering reads the file before anything else. *)
Lemma enter_reads_first ctx t w w' o p f :
  enter vault render t p f ctx w = (w', o) →
  ∃ evs, trace w' = trace w ++ VaultRead f :: evs.
Proof.
  unfold enter, shiftHeadings. unfold_m.
  destruct (read vault f) as [e|content].
  { intros [= <- <-]. exists []. reflexivity. }
  unfold_m.
  destruct (Js.truthy (settings w !! key_shiftHeadings)); red_m.
  - destruct (getParentHeaderLevel (nodes w) t) as [lvl|]; red_m.
    + match goal with |- context [render ?c ?n ?q ?x ?v] =>
        destruct (render c n q x v) as [w3 o3] eqn:Er end.
      apply render_extends_trace in Er as [evs Hevs]. cbn [trace] in Hevs.
      rewrite <- app_assoc in Hevs.
      destruct o3 as [[]|e|]; intros [= <- <-]; red_m; eauto.
    + intros [= <- <-]. exists []. reflexivity.
  - match goal with |- context [render ?c ?n ?q ?x ?v] =>
      destruct (render c n q x v) as [w3 o3] eqn:Er end.
    apply render_extends_trace in Er as [evs Hevs]. cbn [trace] in Hevs.
    rewrite <- app_assoc in Hevs.
    destruct o3 as [[]|e|]; intros [= <- <-]; red_m; eauto.
Qed.

Lemma process_marker_extends_trace ctx t :
  extends_trace (process_marker vault render ctx t).
Proof.
  intros w w' o. unfold process_marker, resolve. unfold_m.
  assert (∀ (w0 : World) o0, (w, o0) = (w', o) → ∃ evs, trace w' = trace w ++ evs)
    as Hsame.
  { intros _ o0 [= <- _]. exists []. rewrite app_nil_r. reflexivity. }
  destruct (shouldProcess w t); [|apply (Hsame w)].
  destruct (Dom.getAttribute_src (nodes w) t) as [p|]; [|apply (Hsame w)].
  destruct (Js.truthy_str p); [|apply (Hsame w)].
  destruct (getAbstractFileByPath vault p) as [f|]; [|apply (Hsame w)].
  destruct (is_file f); [|apply (Hsame w)].
  destruct (decide (p ∈ embeddedFiles w)) as [Hin|Hout].
  - rewrite embed_inflight by assumption. rewrite warn_loop_eq.
    intros [= <- _]. red_m. eauto.
  - rewrite embed_fresh by assumption. intros H.
    apply enter_reads_first in H as [evs ->]. eauto.
Qed.

Lemma for_of_extends_trace ctx ts :
  extends_trace (for_of ts (process_marker vault render ctx)).
Proof.
  induction ts as [|t ts IH]; intros w w' o.
  - intros [= <- _]. exists []. rewrite app_nil_r. reflexivity.
  - cbn [for_of]. unfold_m.
    destruct (process_marker vault render ctx t w) as [w1 o1] eqn:E1.
    apply process_marker_extends_trace in E1 as [evs1 H1].
    destruct o1 as [[]|e|].
    + intros H. apply IH in H as [evs2 ->]. rewrite H1, <- app_assoc. eauto.
    + intros [= <- _]. eauto.
    + intros [= <- _]. eauto.
Qed.

Lemma postProcessor_extends_trace el ctx :
  extends_trace (postProcessor vault render el ctx).
Proof.
  intros w w' o. unfold postProcessor. unfold_m.
  apply for_of_extends_trace.
Qed.

End Traces.

Lemma host_render_extends_trace host pp :
  (∀ el ctx, extends_trace (pp el ctx)) →
  ∀ content container path ctx,
    extends_trace (host_render host pp content container path ctx).
Proof.
  intros Hpp content container path ctx w w' o.
  unfold host_render. unfold_m.
  destruct (build host content path container (nodes w)) as [e|d'].
  - intros [= <- _]. red_m. eauto.
  - intros H. apply Hpp in H as [evs ->]. red_m.
    rewrite <- app_assoc. eauto.
Qed.

Lemma pipeline_extends_trace vault host depth :
  ∀ el ctx, extends_trace (pipeline vault host depth el ctx).
Proof.
  induction depth as [|depth IH]; intros el ctx.
  - intros w w' o [= <- _]. exists []. rewrite app_nil_r. reflexivity.
  - cbn [pipeline]. apply postProcessor_extends_trace.
    apply host_render_extends_trace. exact IH.
Qed.


(** *** The set only holds resolved paths *)

Section Soundness.

Variable vault : Vault.
Variable render : jsstr → node → jsstr → Ctx → M unit.

Hypothesis render_keeps_sound :
  ∀ content container path ctx,
    keeps_sound vault (render content container path ctx).

Lemma guard_sound_same w w' :
  embeddedFiles w' = embeddedFiles w → guard_sound vault w → guard_sound vault w'.
Proof. intros E H p Hp. apply H. rewrite <- E. exact Hp. Qed.

Lemma guard_sound_add w w' p f :
  Js.truthy_str p = true → getAbstractFileByPath vault p = Some f →
  is_file f = true →
  embeddedFiles w' = {[p]} ∪ embeddedFiles w →
  guard_sound vault w → guard_sound vault w'.
Proof.
  intros Hp Hf Hfile E H q Hq. rewrite E in Hq.
  apply elem_of_union in Hq as [Hq|Hq].
  - apply elem_of_singleton in Hq as ->. eauto.
  - apply H. exact Hq.
Qed.

Lemma guard_sound_remove w w' p :
  embeddedFiles w' = embeddedFiles w ∖ {[p]} →
  guard_sound vault w → guard_sound vault w'.
Proof.
  intros E H q Hq. rewrite E in Hq.
  apply elem_of_difference in Hq as [Hq _]. apply H. exact Hq.
Qed.

Lemma enter_keeps_sound ctx t p f :
  Js.truthy_str p = true → getAbstractFileByPath vault p = Some f →
  is_file f = true →
  keeps_sound vault (enter vault render t p f ctx).
Proof.
  intros Hp Hf Hfile w w' o. unfold enter, shiftHeadings. unfold_m.
  intros Hrun Hw.
  assert (guard_sound vault
            (mkWorld (nodes w) (settings w) ({[p]} ∪ embeddedFiles w)
               (trace w ++ [VaultRead f]))) as Hw1.
  { eapply guard_sound_add; eauto. }
  revert Hrun.
  destruct (read vault f) as [e|content].
  { intros [= <- _]. exact Hw1. }
  unfold_m.
  destruct (Js.truthy (settings w !! key_shiftHeadings)); red_m.
  - destruct (getParentHeaderLevel (nodes w) t) as [lvl|]; red_m.
    + match goal with |- context [render ?c ?n ?q ?x ?v] =>
        destruct (render c n q x v) as [w3 o3] eqn:Er end.
      assert (guard_sound vault w3) as H3.
      { eapply render_keeps_sound; [exact Er|].
        eapply guard_sound_same; [|exact Hw1]. reflexivity. }
      destruct o3 as [[]|e|]; intros [= <- _]; try exact H3.
      eapply guard_sound_remove; [|exact H3]. reflexivity.
    + intros [= <- _]. exact Hw1.
  - match goal with |- context [render ?c ?n ?q ?x ?v] =>
      destruct (render c n q x v) as [w3 o3] eqn:Er end.
    assert (guard_sound vault w3) as H3.
    { eapply render_keeps_sound; [exact Er|].
      eapply guard_sound_same; [|exact Hw1]. reflexivity. }
    destruct o3 as [[]|e|]; intros [= <- _]; try exact H3.
    eapply guard_sound_remove; [|exact H3]. reflexivity.
Qed.

Lemma process_marker_keeps_sound ctx t :
  keeps_sound vault (process_marker vault render ctx t).
Proof.
  intros w w' o. unfold process_marker, resolve. unfold_m.
  destruct (shouldProcess w t); [|intros [= <- _]; auto].
  destruct (Dom.getAttribute_src (nodes w) t) as [p|]; [|intros [= <- _]; auto].
  destruct (Js.truthy_str p) eqn:Hp; [|intros [= <- _]; auto].
  destruct (getAbstractFileByPath vault p) as [f|] eqn:Hf; [|intros [= <- _]; auto].
  destruct (is_file f) eqn:Hfile; [|intros [= <- _]; auto].
  destruct (decide (p ∈ embeddedFiles w)) as [Hin|Hout].
  - rewrite embed_inflight by assumption. rewrite warn_loop_eq.
    intros [= <- _]. apply guard_sound_same. reflexivity.
  - rewrite embed_fresh by assumption. eapply enter_keeps_sound; eauto.
Qed.

Lemma for_of_keeps_sound ctx ts :
  keeps_sound vault (for_of ts (process_marker vault render ctx)).
Proof.
  induction ts as [|t ts IH]; intros w w' o.
  - intros [= <- _]. auto.
  - cbn [for_of]. unfold_m.
    destruct (process_marker vault render ctx t w) as [w1 o1] eqn:E1.
    intros Hrun Hw.
    assert (guard_sound vault w1) as H1
      by (eapply process_marker_keeps_sound; eauto).
    destruct o1 as [[]|e|].
    + eapply IH; eauto.
    + injection Hrun as <- _. exact H1.
    + injection Hrun as <- _. exact H1.
Qed.

Lemma postProcessor_keeps_sound el ctx :
  keeps_sound vault (postProcessor vault render el ctx).
Proof.
  intros w w' o. unfold postProcessor. unfold_m.
  apply for_of_keeps_sound.
Qed.

End Soundness.

Lemma host_render_keeps_sound vault host pp :
  (∀ el ctx, keeps_sound vault (pp el ctx)) →
  ∀ content container path ctx,
    keeps_sound vault (host_render host pp content container path ctx).
Proof.
  intros Hpp content container path ctx w w' o.
  unfold host_render. unfold_m.
  destruct (build host content path container (nodes w)) as [e|d'].
  - intros [= <- _]. apply guard_sound_same. reflexivity.
  - intros H Hw. eapply Hpp; [exact H|].
    eapply guard_sound_same; [|exact Hw]. reflexivity.
Qed.

(** Whatever the outcome of a pass, the set of files being embedded only
    holds paths the gate and the vault accepted. *)
Lemma pipeline_keeps_sound vault host depth :
  ∀ el ctx, keeps_sound vault (pipeline vault host depth el ctx).
Proof.
  induction depth as [|depth IH]; intros el ctx.
  - intros w w' o [= <- _]. auto.
  - cbn [pipeline]. apply postProcessor_keeps_sound.
    apply host_render_keeps_sound. exact IH.
Qed.

Lemma onload_guard_sound vault data w :
  guard_sound vault (fst (onload data w)).
Proof. intros p Hp. vm_compute in Hp. discriminate. Qed.

(** ** The claims about the post-processor *)

Section OrchestratorClaims.

Variable vault : Vault.
Variable render : jsstr → node → jsstr → Ctx → M unit.


(** C7. When the [src] attribute of the marker is absent (or empty), or
    the vault has nothing at that path, or what it has there is not a
    file, the iteration returns normally and the world is exactly as
    before: same tree (no warning node), same set of files being
    embedded, same trace (nothing read, nothing rendered, nothing
    logged). *)
Theorem unresolvable_left_untouched ctx w t :
  Dom.getAttribute_src (nodes w) t = None ∨
  Dom.getAttribute_src (nodes w) t = Some [] ∨
  (∃ p, Dom.getAttribute_src (nodes w) t = Some p ∧
        getAbstractFileByPath vault p = None) ∨
  (∃ p f, Dom.getAttribute_src (nodes w) t = Some p ∧
          getAbstractFileByPath vault p = Some f ∧ is_file f = false) →
  process_marker vault render ctx t w = (w, Ok tt).
Proof.
  intros H. unfold process_marker, resolve. unfold_m.
  destruct (shouldProcess w t); [|reflexivity].
  destruct H as [H|[H|[(p & H & Hp)|(p & f & H & Hp & Hf)]]]; rewrite H.
  - reflexivity.
  - reflexivity.
  - destruct (Js.truthy_str p); [|reflexivity]. rewrite Hp. reflexivity.
  - destruct (Js.truthy_str p); [|reflexivity]. rewrite Hp, Hf. reflexivity.
Qed.

(** C2. In a world whose set of files being embedded holds only paths
    that were resolved to a file (it is filled in no other way, see
    [pipeline_keeps_sound]): when the file [p] a processed marker refers
    to is already in the set, the iteration does not enter [p]. It
    returns normally, and in the same world whatever the renderer is; the
    set still contains [p] and is unchanged; the only event is the
    console warning, whose text ends with [p] (no read, no render). The
    document gets one new node, a [div] of class [embed-warning] whose
    text is the warning sign, [ Infinite loop detected: ] and [p]. If the
    marker stands in the child list [before ++ t :: after] of a parent,
    that list becomes [before ++ warning :: after], the [div] has that
    parent, the marker is detached and no other node changes; a marker
    without a parent stays as it is and the [div] stays detached. The
    loop goes on with the next marker. *)
Theorem loop_rejected ctx w t p rest :
  guard_sound vault w →
  shouldProcess w t = true →
  Dom.getAttribute_src (nodes w) t = Some p →
  p ∈ embeddedFiles w →
  let warning := fresh (dom (nodes w)) in
  let text := warning_sign ++ units " Infinite loop detected: " ++ p in
  let w' := fst (process_marker vault render ctx t w) in
  process_marker vault render ctx t w = (w', Ok tt) ∧
  (∀ render', process_marker vault render' ctx t w = (w', Ok tt)) ∧
  embeddedFiles w' = embeddedFiles w ∧
  p ∈ embeddedFiles w' ∧
  settings w' = settings w ∧
  trace w' =
    trace w ++
    [ConsoleWarn (warning_sign ++
                  units " Infinite embed loop detected! Skipping: " ++ p)] ∧
  nodes w !! warning = None ∧
  (∀ par before after,
     parentElement (nodes w !!! t) = Some par → is_Some (nodes w !! par) →
     childElements (nodes w !!! par) = before ++ t :: after →
     t ∉ before →
     nodes w' !!! warning =
       mkElement (units "DIV") None [units "embed-warning"] text []
         (Some par) [] ∧
     childElements (nodes w' !!! par) = before ++ warning :: after ∧
     parentElement (nodes w' !!! t) = None ∧
     (∀ n, n ≠ t → n ≠ warning → n ≠ par → nodes w' !! n = nodes w !! n)) ∧
  (parentElement (nodes w !!! t) = None → is_Some (nodes w !! t) →
     nodes w' =
     <[warning := mkElement (units "DIV") None [units "embed-warning"] text []
                    None []]> (nodes w)) ∧
  for_of (t :: rest) (process_marker vault render ctx) w =
  for_of rest (process_marker vault render ctx) w'.
Proof.
  intros Hsound Hgate Hsrc Hin warning text w'.
  destruct (Hsound p Hin) as (Hp & f & Hf & Hfile).
  assert (∀ r, process_marker vault r ctx t w = warn_loop t p w) as Hany.
  { intros r.
    rewrite (process_marker_embed vault r ctx t w p f) by assumption.
    apply embed_inflight. exact Hin. }
  assert (w' = fst (warn_loop t p w)) as Hw' by (subst w'; rewrite Hany; reflexivity).
  clearbody w'. subst w'.
  rewrite warn_loop_eq in *. cbn [fst] in *. red_m.
  split; [apply Hany|]. split; [exact Hany|].
  split; [reflexivity|]. split; [exact Hin|]. split; [reflexivity|].
  split; [reflexivity|]. split; [|split; [|split]].
  - apply not_elem_of_dom, is_fresh.
  - intros par before after Hpar Hex Hkids0 Hfirst.
    destruct (replaceWith_new_div (nodes w) t par
                (mkElement (units "DIV") None [units "embed-warning"] (loop_text p)
                   [] None [])
                Hpar Hex eq_refl) as (Hnew & Hkids & Hold & Hframe).
    fold warning in Hnew, Hkids, Hold, Hframe |- *.
    rewrite Hnew, Hkids, Hkids0, replace_child_first by exact Hfirst.
    split; [reflexivity|]. split; [reflexivity|]. split; [exact Hold|].
    exact Hframe.
  - intros Hnone Hex.
    apply (replaceWith_no_parent (nodes w) t
             (mkElement (units "DIV") None [units "embed-warning"] (loop_text p)
                [] None []) Hnone Hex).
  - cbn [for_of]. unfold mbind, M_bind, bind. rewrite Hany. reflexivity.
Qed.

End OrchestratorClaims.



Lemma unresolvable_left_untouched_witness :
  process_marker example_vault example_render example_ctx 8%positive example_world =
  (example_world, Ok tt).
Proof.
  apply (unresolvable_left_untouched example_vault example_render example_ctx
           example_world 8%positive).
  right. right. left. exists (units "missing.md"). split; reflexivity.
Defined.

Lemma loop_rejected_witness :
  let w' := fst (process_marker example_vault example_render example_ctx
                   2%positive inflight_world) in
  nodes w' !!! 12%positive =
    mkElement (units "DIV") None [units "embed-warning"]
      ([9888%N; 65039%N] ++ units " Infinite loop detected: plain.md") []
      (Some 1%positive) [] ∧
  childElements (nodes w' !!! 1%positive) =
    [12; 3; 4; 5; 6; 7; 8; 9; 10; 11]%positive ∧
  parentElement (nodes w' !!! 2%positive) = None ∧
  trace w' =
    [ConsoleWarn ([9888%N; 65039%N] ++
                  units " Infinite embed loop detected! Skipping: plain.md")].
Proof.
  assert (guard_sound example_vault inflight_world) as Hsound.
  { intros q Hq. change (q ∈ ({[plain_md]} : gset jsstr)) in Hq.
    apply elem_of_singleton in Hq as ->.
    split; [reflexivity|]. exists (TFile plain_md). split; reflexivity. }
  assert (plain_md ∈ embeddedFiles inflight_world) as Hin.
  { change (plain_md ∈ ({[plain_md]} : gset jsstr)).
    apply elem_of_singleton. reflexivity. }
  destruct (loop_rejected example_vault example_render example_ctx
              inflight_world 2%positive plain_md [3%positive]
              Hsound eq_refl eq_refl Hin)
    as (_ & _ & _ & _ & _ & Htrace & _ & Hnodes & _).
  destruct (Hnodes 1%positive [] [3; 4; 5; 6; 7; 8; 9; 10; 11]%positive
              eq_refl ltac:(vm_compute; eauto) eq_refl (not_elem_of_nil _))
    as (Hnew & Hkids & Hold & _).
  cbv zeta. split; [exact Hnew|]. split; [exact Hkids|].
  split; [exact Hold|exact Htrace].
Defined.

(** C8. [loadSettings] replaces the settings by the persisted data
    merged over the defaults and touches nothing else: for each of the two
    fields, the persisted value if the data has the field, [false]
    otherwise (also when nothing was persisted). *)
Theorem loadSettings_defaults data w :
  let w' := fst (loadSettings data w) in
  loadSettings data w = (w', Ok tt) ∧
  nodes w' = nodes w ∧ embeddedFiles w' = embeddedFiles w ∧
  trace w' = trace w ∧
  ∀ key, key = key_renderAll ∨ key = key_shiftHeadings →
    settings w' !! key =
    match data ≫= (λ o : Js.object, o !! key) with
    | Some v => Some v
    | None => Some (Js.VBool false)
    end.
Proof.
  cbn zeta. unfold loadSettings. unfold_m.
  repeat split.
  intros key Hkey.
  assert (default_settings !! key = Some (Js.VBool false)) as Hdef.
  { destruct Hkey as [-> | ->]; vm_compute; reflexivity. }
  destruct data as [o|]; cbn [Js.assign mbind option_bind].
  - rewrite lookup_union. destruct (o !! key) as [v|]; rewrite Hdef; reflexivity.
  - exact Hdef.
Qed.


Lemma loadSettings_defaults_witness :
  settings (fst (loadSettings (Some {[key_renderAll := Js.VBool true]})
                   example_world)) !! key_shiftHeadings =
  Some (Js.VBool false).
Proof.
  exact (proj2 (proj2 (proj2 (proj2
           (loadSettings_defaults (Some {[key_renderAll := Js.VBool true]})
              example_world)))) key_shiftHeadings (or_intror eq_refl)).
Defined.

(** C9. In a pass whose renders are the host's (which run the
    post-processor again, to any depth): once a marker for [p] has been
    embedded and the iteration has returned, [p] is no longer in the set
    of files being embedded; it is still absent after any further
    iterations that returned; so a later marker of the same pass that
    refers to [p] is entered like the first one, not rejected: its
    iteration is [enter], and the first thing it does is read the
    file. *)
Theorem sibling_resolves_again vault host depth ctx w m1 mid m2 p f w1 w2 :
  let render := host_render host (pipeline vault host depth) in
  shouldProcess w m1 = true →
  Dom.getAttribute_src (nodes w) m1 = Some p →
  Js.truthy_str p = true →
  getAbstractFileByPath vault p = Some f →
  is_file f = true →
  p ∉ embeddedFiles w →
  process_marker vault render ctx m1 w = (w1, Ok tt) →
  for_of mid (process_marker vault render ctx) w1 = (w2, Ok tt) →
  shouldProcess w2 m2 = true →
  Dom.getAttribute_src (nodes w2) m2 = Some p →
  (p ∉ embeddedFiles w1) ∧
  (p ∉ embeddedFiles w2) ∧
  process_marker vault render ctx m2 w2 = enter vault render m2 p f ctx w2 ∧
  ∃ evs,
    trace (fst (process_marker vault render ctx m2 w2)) =
    trace w2 ++ VaultRead f :: evs.
Proof.
  intros render Hgate Hsrc Hp Hf Hfile Hout H1 Hmid Hgate2 Hsrc2.
  assert (∀ content container path ctx,
            keeps_guard (render content container path ctx)) as Hr.
  { apply host_render_keeps_guard, pipeline_keeps_guard. }
  pose proof (process_marker_keeps_guard vault render Hr ctx m1 _ _ H1) as [E1 _].
  pose proof (for_of_keeps_guard vault render Hr ctx mid _ _ Hmid) as [E2 _].
  assert (p ∉ embeddedFiles w2) as Hout2 by (rewrite E2, E1; exact Hout).
  split; [rewrite E1; exact Hout|]. split; [exact Hout2|].
  assert (process_marker vault render ctx m2 w2 =
          enter vault render m2 p f ctx w2) as Henter.
  { rewrite (process_marker_embed vault render ctx m2 w2 p f) by assumption.
    apply embed_fresh. exact Hout2. }
  split; [exact Henter|].
  rewrite Henter.
  destruct (enter vault render m2 p f ctx w2) as [w3 o] eqn:E.
  eapply enter_reads_first; [|exact E].
  apply host_render_extends_trace, pipeline_extends_trace.
Qed.

Lemma sibling_resolves_again_witness :
  process_marker example_vault example_render example_ctx 3%positive
    (fst (for_of [6; 7]%positive
            (process_marker example_vault example_render example_ctx)
            (fst (process_marker example_vault example_render example_ctx
                    2%positive example_world)))) =
  enter example_vault example_render 3%positive plain_md (TFile plain_md)
    example_ctx
    (fst (for_of [6; 7]%positive
            (process_marker example_vault example_render example_ctx)
            (fst (process_marker example_vault example_render example_ctx
                    2%positive example_world)))).
Proof.
  refine (proj1 (proj2 (proj2
    (sibling_resolves_again example_vault example_host 4 example_ctx
       example_world 2%positive [6; 7]%positive 3%positive plain_md
       (TFile plain_md) _ _
       eq_refl eq_refl eq_refl eq_refl eq_refl _ _ _ _ _)))).
  - apply not_elem_of_empty.
  - vm_compute. reflexivity.
  - vm_compute. reflexivity.
  - vm_compute. reflexivity.
  - vm_compute. reflexivity.
Defined.

(** C1 fails on the code. The set of files being embedded is released
    only by the last statement of the iteration: when [vault.read]
    rejects (marker 4, [locked.md]) or the renderer rejects (marker 5,
    [broken.md]) the iteration throws and the file is still in the set.
    A marker for the same file in a later pass (marker 10) is then
    answered with the loop warning although nothing is being embedded. *)
Theorem guard_kept_after_failure :
  let r4 := process_marker example_vault example_render example_ctx
              4%positive example_world in
  let r5 := process_marker example_vault example_render example_ctx
              5%positive example_world in
  let r10 := process_marker example_vault example_render example_ctx
               10%positive (fst r4) in
  snd r4 = Throw (Exn (units "EIO")) ∧
  bool_decide (locked_md ∈ embeddedFiles (fst r4)) = true ∧
  snd r5 = Throw (Exn (units "render failed")) ∧
  bool_decide (broken_md ∈ embeddedFiles (fst r5)) = true ∧
  snd r10 = Ok tt ∧
  trace (fst r10) =
    [VaultRead (TFile locked_md); ConsoleWarn (loop_message locked_md)].
Proof. vm_compute. repeat split; reflexivity. Qed.

(** Two notes that embed each other: the second is embedded once in the
    first, and the embed of the first inside the second is answered with
    the loop warning; the pass returns and the set is empty again. *)
Example mutual_embed_warns_once :
  let r := process_marker example_vault example_render example_ctx
             11%positive example_world in
  snd r = Ok tt ∧
  embeddedFiles (fst r) = ∅ ∧
  trace (fst r) =
    [VaultRead (TFile a_md); Render (units "see b") 12%positive a_md;
     VaultRead (TFile b_md); Render (units "see a") 14%positive b_md;
     ConsoleWarn (loop_message a_md)].
Proof. vm_compute. repeat split; reflexivity. Qed.

(** * Further properties *)

(** ** The heading shifter *)

Section ShifterExtras.

Import Js.

Lemma run_take_all cls s : Forall (λ c, cls c = true) (take (run cls s) s).
Proof.
  induction s as [|c s IH]; simpl; [constructor|].
  destruct (cls c) eqn:E; simpl; constructor; assumption.
Qed.

Lemma run_drop_stops cls s :
  run cls (drop (run cls s) s) = 0.
Proof.
  induction s as [|c s IH]; simpl; [reflexivity|].
  destruct (cls c) eqn:E; simpl; [exact IH|]. rewrite E. reflexivity.
Qed.

Lemma match_is_markers_and_blanks s :
  List.filter is_content (take (markers s + blanks s) s) = [].
Proof.
  rewrite <- take_take_drop, List.filter_app.
  assert (∀ cls l, (∀ c, cls c = true → is_content c = false) →
            Forall (λ c, cls c = true) l → List.filter is_content l = [])
    as Hnone.
  { intros cls l Hcls Hl. induction Hl as [|c l Hc _ IH]; [reflexivity|].
    cbn [List.filter]. rewrite (Hcls c Hc). exact IH. }
  unfold markers, blanks.
  rewrite (Hnone cls_hash), (Hnone cls_space); auto using run_take_all.
  - intros c Hc. unfold is_content. rewrite Hc, orb_true_r. reflexivity.
  - intros c Hc. unfold is_content. rewrite Hc. reflexivity.
Qed.

Lemma shifted_marker_no_content l m groups :
  List.filter is_content (shifted_marker l m groups) = [].
Proof.
  unfold shifted_marker. rewrite List.filter_app. cbn [List.filter].
  change (is_content space) with false. rewrite app_nil_r.
  destruct (newLevel (hd [] groups) l) as [|n]; [reflexivity|].
  rewrite repeat_hash_int.
  induction n as [|n IH]; [reflexivity|]. exact IH.
Qed.

Lemma shift_from_content l : ∀ n s prev,
  length s ≤ n →
  List.filter is_content (shift_from l prev s) = List.filter is_content s.
Proof.
  induction n as [|n IH]; intros s prev Hn.
  - destruct s; [|simpl in Hn; lia]. rewrite shift_from_nil. reflexivity.
  - destruct s as [|c s]; [rewrite shift_from_nil; reflexivity|].
    destruct (heading_here prev (c :: s)) eqn:Hh.
    + rewrite shift_from_hit by exact Hh.
      pose proof (markers_blanks_le (c :: s)) as Hle.
      assert (1 ≤ markers (c :: s)) as Hm.
      { unfold heading_here in Hh. apply andb_prop in Hh as [Hh _].
        apply andb_prop in Hh as [Hh _]. apply andb_prop in Hh as [_ Hh].
        apply Nat.leb_le in Hh. exact Hh. }
      rewrite List.filter_app, shifted_marker_no_content.
      rewrite IH by (rewrite length_drop; simpl in *; lia).
      cbn [app].
      transitivity (List.filter is_content
                      (take (markers (c :: s) + blanks (c :: s)) (c :: s) ++
                       drop (markers (c :: s) + blanks (c :: s)) (c :: s))).
      * rewrite List.filter_app, match_is_markers_and_blanks. reflexivity.
      * rewrite take_drop. reflexivity.
    + rewrite shift_from_miss by exact Hh. cbn [List.filter].
      rewrite IH by (simpl in Hn; lia). reflexivity.
Qed.

(** X1. Whatever the text and the base level, the shift alters nothing
    but markers and white space: the characters that are neither [#] nor
    white space come out the same, in the same order. *)
Theorem shift_keeps_content b text :
  List.filter is_content (shift b text) = List.filter is_content text.
Proof.
  destruct b as [l|]; [|reflexivity].
  cbn [shift]. unfold shift_text, replace_global.
  change (replace_from heading_re (shifted_marker l) None text 0)
    with (shift_from l None text).
  apply (shift_from_content l (length text)). lia.
Qed.

Lemma shift_from_calm l s : ∀ prev,
  calm prev s = true → shift_from l prev s = s.
Proof.
  induction s as [|c s IH]; intros prev H; [apply shift_from_nil|].
  cbn [calm] in H. apply andb_prop in H as [Hc Hs].
  rewrite shift_from_miss; [rewrite IH by exact Hs; reflexivity|].
  unfold heading_here, markers. cbn [run].
  destruct (at_line_start true prev); [|reflexivity].
  cbn [andb negb] in Hc. destruct (cls_hash c); [discriminate|reflexivity].
Qed.

(** X2. A text in which no line begins with [#] (no [#] at the start of
    the text or right after a line terminator) is returned as it is,
    whatever the base level. *)
Theorem shift_without_markers b text :
  calm None text = true → shift b text = text.
Proof.
  intros H. destruct b as [l|]; [|reflexivity].
  apply (shift_from_calm l text None H).
Qed.

Lemma shift_without_markers_witness :
  shift (Some (Int 2)) (units "a #b" ++ [10%N] ++ units " # c") =
  units "a #b" ++ [10%N] ++ units " # c".
Proof. apply shift_without_markers. reflexivity. Defined.

(** Texts of titled lines are rewritten line by line. *)
Lemma shift_from_unlines l ls final : ∀ prev,
  Forall (λ lt, titled_line lt.1 ∧ is_line_terminator lt.2 = true) ls →
  no_terminator final →
  at_line_start true prev = true →
  shift_from (Int l) prev (unlines ls final) =
  unlines (map (λ lt, (shift_line l lt.1, lt.2)) ls) (shift_line l final).
Proof.
  intros prev Hls Hfinal. revert prev.
  induction Hls as [|[line t] ls [Hline Ht] _ IH]; intros prev Hp.
  - cbn [unlines map].
    rewrite <- (app_nil_r final) at 1.
    rewrite shift_from_line by (rewrite ?app_nil_r; auto).
    rewrite shift_from_nil, app_nil_r. reflexivity.
  - cbn [unlines map fst snd] in *.
    rewrite shift_from_titled by assumption.
    rewrite IH; [reflexivity|]. simpl. exact Ht.
Qed.

Lemma shift_unlines l ls final :
  Forall (λ lt, titled_line lt.1 ∧ is_line_terminator lt.2 = true) ls →
  no_terminator final →
  shift (Some (Int l)) (unlines ls final) =
  unlines (map (λ lt, (shift_line l lt.1, lt.2)) ls) (shift_line l final).
Proof.
  intros Hls Hfinal. apply (shift_from_unlines l ls final None); auto.
Qed.

Lemma shift_line_tag l h c rest :
  cls_hash c = false → cls_space c = false →
  shift_line l (List.repeat hash h ++ c :: rest) = List.repeat hash h ++ c :: rest.
Proof.
  intros Hh Hs. unfold shift_line, is_heading_line.
  assert (markers (List.repeat hash h ++ c :: rest) = h) as Hm.
  { unfold markers. rewrite run_app_all by apply Forall_hash_repeat.
    rewrite repeat_length, run_head_false by exact Hh. lia. }
  assert (blanks (List.repeat hash h ++ c :: rest) = 0) as Hb.
  { unfold blanks. rewrite Hm, drop_repeat_app.
    apply run_head_false. exact Hs. }
  rewrite Hb. rewrite !andb_false_r. reflexivity.
Qed.

Lemma shift_line_long l line :
  6 < markers line → shift_line l line = line.
Proof.
  intros H. unfold shift_line, is_heading_line.
  assert ((markers line <=? 6) = false) as -> by (apply Nat.leb_gt; lia).
  rewrite andb_false_r. reflexivity.
Qed.

(** X3. After any titled lines, a last line that consists of markers
    directly followed by a character that is neither [#] nor white space
    (a tag such as [#todo]), or that begins with more than six markers, is
    reproduced unchanged. *)
Theorem shift_leaves_tags_and_long_runs l ls :
  Forall (λ lt, titled_line lt.1 ∧ is_line_terminator lt.2 = true) ls →
  (∀ h c rest,
     cls_hash c = false → cls_space c = false → no_terminator rest →
     shift (Some (Int l)) (unlines ls (List.repeat hash h ++ c :: rest)) =
     unlines (map (λ lt, (shift_line l lt.1, lt.2)) ls)
       (List.repeat hash h ++ c :: rest)) ∧
  (∀ h rest,
     6 < h → no_terminator rest →
     shift (Some (Int l)) (unlines ls (List.repeat hash h ++ rest)) =
     unlines (map (λ lt, (shift_line l lt.1, lt.2)) ls)
       (List.repeat hash h ++ rest)).
Proof.
  intros Hls.
  assert (∀ h, no_terminator (List.repeat hash h)) as Hrep.
  { intros h. induction h; constructor; [reflexivity|assumption]. }
  split.
  - intros h c rest Hh Hs Hrest.
    rewrite shift_unlines; [|exact Hls|].
    + rewrite shift_line_tag by assumption. reflexivity.
    + apply Forall_app. split; [apply Hrep|]. constructor; [|exact Hrest].
      destruct (is_line_terminator c) eqn:E; [|reflexivity].
      unfold cls_space in Hs. rewrite E, orb_true_r in Hs. discriminate.
  - intros h rest Hh Hrest.
    rewrite shift_unlines; [|exact Hls|].
    + rewrite shift_line_long; [reflexivity|].
      unfold markers. rewrite run_app_all by apply Forall_hash_repeat.
      rewrite repeat_length. lia.
    + apply Forall_app. split; [apply Hrep|exact Hrest].
Qed.


Lemma shift_leaves_tags_and_long_runs_witness :
  shift (Some (Int 2))
    (units "# Top" ++ [10%N] ++ units "#todo and ######## stay") =
  units "### Top" ++ [10%N] ++ units "#todo and ######## stay".
Proof.
  refine (proj1 (shift_leaves_tags_and_long_runs 2 [(units "# Top", 10%N)] _)
            1 116%N (units "odo and ######## stay") eq_refl eq_refl _).
  - repeat constructor; cbv; lia.
  - repeat constructor.
Defined.

(** *** Shifting twice *)

Lemma markers_shifted k title :
  markers (List.repeat hash k ++ space :: title) = k.
Proof.
  unfold markers. rewrite run_app_all by apply Forall_hash_repeat.
  rewrite repeat_length. cbn. lia.
Qed.

Lemma blanks_shifted k title :
  run cls_space title = 0 →
  blanks (List.repeat hash k ++ space :: title) = 1.
Proof.
  intros H. unfold blanks. rewrite markers_shifted, drop_repeat_app.
  cbn. rewrite H. reflexivity.
Qed.

Lemma heading_line_facts line :
  is_heading_line line = true →
  1 ≤ markers line ≤ 6 ∧ 1 ≤ blanks line.
Proof.
  unfold is_heading_line. intros H.
  apply andb_prop in H as [H Hb]. apply andb_prop in H as [H1 H6].
  apply Nat.leb_le in H1, H6, Hb. lia.
Qed.

Lemma title_not_blank line :
  run cls_space (drop (markers line + blanks line) line) = 0.
Proof.
  rewrite <- drop_drop. unfold blanks. apply run_drop_stops.
Qed.

(** On one line, shifting by [l1] and then by [l2] is shifting by
    [l1 + l2]. *)
Lemma shift_line_twice l1 l2 line :
  shift_line l2 (shift_line l1 line) = shift_line (l1 + l2) line.
Proof.
  unfold shift_line at 2 3.
  destruct (is_heading_line line) eqn:Hh.
  - apply heading_line_facts in Hh as [Hm Hb].
    set (title := drop (markers line + blanks line) line).
    pose proof (title_not_blank line) as Ht. fold title in Ht.
    unfold shift_line, is_heading_line. cbn [app].
    rewrite markers_shifted, blanks_shifted by exact Ht.
    assert ((1 <=? Nat.min (markers line + l1) 6) = true) as ->
      by (apply Nat.leb_le; lia).
    assert ((Nat.min (markers line + l1) 6 <=? 6) = true) as ->
      by (apply Nat.leb_le; lia).
    cbn [andb Nat.leb].
    replace (Nat.min (markers line + l1) 6 + 1)
      with (length (List.repeat hash (Nat.min (markers line + l1) 6) ++ [space]))
      by (rewrite length_app, repeat_length; reflexivity).
    change (List.repeat hash (Nat.min (markers line + l1) 6) ++ space :: title)
      with (List.repeat hash (Nat.min (markers line + l1) 6) ++ [space] ++ title).
    rewrite app_assoc, drop_app_length.
    f_equal. f_equal. lia.
  - unfold shift_line. rewrite Hh. reflexivity.
Qed.

Lemma shift_line_no_terminator l line :
  no_terminator line → no_terminator (shift_line l line).
Proof.
  intros H. unfold shift_line. destruct (is_heading_line line); [|exact H].
  apply Forall_app. split.
  - induction (Nat.min (markers line + l) 6); constructor; [reflexivity|assumption].
  - constructor; [reflexivity|]. apply Forall_drop. exact H.
Qed.

Lemma shift_line_titled l line :
  titled_line line → titled_line (shift_line l line).
Proof.
  intros [Hno Ht]. split; [apply shift_line_no_terminator; exact Hno|].
  unfold shift_line. destruct (is_heading_line line) eqn:Hh; [|exact Ht].
  apply heading_line_facts in Hh as [Hm Hb]. specialize (Ht Hm).
  cbn [app]. rewrite markers_shifted, blanks_shifted by apply title_not_blank.
  intros _. rewrite length_app, repeat_length. cbn [length].
  rewrite length_drop. lia.
Qed.

(** X4. Shifts add up: shifting a text of titled lines by [l1] and the
    result by [l2] gives what shifting it by [l1 + l2] gives, the levels
    being clamped at 6 either way. *)
Theorem shift_twice l1 l2 ls final :
  Forall (λ lt, titled_line lt.1 ∧ is_line_terminator lt.2 = true) ls →
  no_terminator final →
  shift (Some (Int l2)) (shift (Some (Int l1)) (unlines ls final)) =
  shift (Some (Int (l1 + l2))) (unlines ls final).
Proof.
  intros Hls Hfinal.
  rewrite (shift_unlines l1), (shift_unlines (l1 + l2)) by assumption.
  rewrite shift_unlines.
  - rewrite map_map. cbn [fst snd]. rewrite shift_line_twice.
    f_equal. apply map_ext. intros [line t]. cbn [fst snd].
    rewrite shift_line_twice. reflexivity.
  - apply Forall_map. eapply Forall_impl; [exact Hls|].
    intros [line t] [H1 H2]. cbn [fst snd] in *.
    split; [apply shift_line_titled; exact H1|exact H2].
  - apply shift_line_no_terminator. exact Hfinal.
Qed.

Lemma shift_twice_witness :
  shift (Some (Int 3)) (shift (Some (Int 1)) (units "#  A" ++ [10%N] ++ units "#### B")) =
  shift (Some (Int 4)) (units "#  A" ++ [10%N] ++ units "#### B").
Proof.
  refine (shift_twice 1 3 [(units "#  A", 10%N)] (units "#### B") _ _).
  - repeat constructor; cbv; lia.
  - repeat constructor.
Defined.

(** X5. The backtracking search for [/^(#{1,6})\s+/m] succeeds at a
    position exactly when the position is a line start, the run of [#]
    there has between one and six characters and at least one white space
    character follows; the match then covers the whole run of markers and
    the whole run of white space (line terminators included), and the
    group captures the markers. *)
Theorem heading_pattern_meaning prev s r :
  exec_at heading_re prev s = Some r ↔
  at_line_start true prev = true ∧
  1 ≤ markers s ≤ 6 ∧ 1 ≤ blanks s ∧
  r = MatchResult (markers s + blanks s) [take (markers s) s].
Proof.
  rewrite exec_heading. unfold heading_here.
  destruct (at_line_start true prev); cbn [andb].
  - destruct (1 <=? markers s) eqn:E1; cbn [andb].
    + destruct (markers s <=? 6) eqn:E6; cbn [andb].
      * destruct (1 <=? blanks s) eqn:Eb.
        -- apply Nat.leb_le in E1, E6, Eb.
           split; [intros [= <-]; auto|intros (_ & _ & _ & ->); reflexivity].
        -- apply Nat.leb_gt in Eb.
           split; [discriminate|intros (_ & _ & H & _); lia].
      * apply Nat.leb_gt in E6.
        split; [discriminate|intros (_ & H & _); lia].
    + apply Nat.leb_gt in E1.
      split; [discriminate|intros (_ & H & _); lia].
  - split; [discriminate|intros (H & _); discriminate].
Qed.

(** X6. The test [parent.tagName && /^H[1-6]$/.test(parent.tagName)]
    holds exactly for the two-character names [H1] to [H6] (upper case,
    nothing before or after), and for these
    [parseInt(tagName.charAt(1))] is the digit. *)
Theorem heading_tag_meaning tag :
  (truthy_str tag && test heading_tag_re tag = true ↔
   ∃ d, tag = [72%N; d] ∧ (49 ≤ d ≤ 54)%N) ∧
  (∀ d, (49 ≤ d ≤ 54)%N →
     parseInt (charAt [72%N; d] 1) = Int (N.to_nat (d - 48))).
Proof.
  split.
  - pose proof (heading_tag_check tag) as H.
    destruct (truthy_str tag && test heading_tag_re tag).
    + split; [intros _|reflexivity].
      destruct tag as [|h [|d [|x tag]]]; try discriminate H.
      unfold heading_level in H.
      destruct (N.eqb h 72) eqn:Eh; [|discriminate H].
      destruct (N.leb 49 d) eqn:E1; [|discriminate H].
      destruct (N.leb d 54) eqn:E2; [|discriminate H].
      apply N.eqb_eq in Eh. apply N.leb_le in E1, E2. subst h. eauto.
    + split; [discriminate|]. intros (d & -> & Hd).
      unfold heading_level in H.
      assert ((49 <=? d)%N = true) as E1 by (apply N.leb_le; lia).
      assert ((d <=? 54)%N = true) as E2 by (apply N.leb_le; lia).
      rewrite E1, E2 in H. discriminate H.
  - intros d Hd.
    assert (d = 49 ∨ d = 50 ∨ d = 51 ∨ d = 52 ∨ d = 53 ∨ d = 54)%N
      as Hc by lia.
    destruct Hc as [->|[->|[->|[->|[->| ->]]]]]; reflexivity.
Qed.

End ShifterExtras.

(** ** The pass *)

Section PassExtras.

Variable vault : Vault.
Variable render : jsstr → node → jsstr → Ctx → M unit.

Lemma process_marker_target ctx t w :
  process_marker vault render ctx t w =
  match target vault w t with
  | Some (p, f) => embed vault render t p f ctx w
  | None => (w, Ok tt)
  end.
Proof.
  unfold process_marker, resolve, target. unfold_m.
  destruct (shouldProcess w t); [|reflexivity].
  destruct (Dom.getAttribute_src (nodes w) t) as [p|]; [|reflexivity].
  destruct (Js.truthy_str p); [|reflexivity].
  destruct (getAbstractFileByPath vault p) as [f|]; [|reflexivity].
  destruct (is_file f); reflexivity.
Qed.

Lemma for_of_all_skipped ctx ts w :
  Forall (λ t, target vault w t = None) ts →
  for_of ts (process_marker vault render ctx) w = (w, Ok tt).
Proof.
  induction 1 as [|t ts Ht _ IH]; [reflexivity|].
  cbn [for_of]. unfold mbind, M_bind, bind.
  rewrite process_marker_target, Ht. exact IH.
Qed.

(** X7. If every marker of the fragment is skipped (the gate is closed
    for it, or its [src] is absent or empty, or the vault has no file
    there), the pass returns normally and the world is exactly as before,
    however many markers there are. *)
Theorem pass_over_skipped_markers el ctx w :
  Forall (λ t, target vault w t = None)
    (Dom.querySelectorAll (nodes w) el) →
  postProcessor vault render el ctx w = (w, Ok tt).
Proof.
  intros H. unfold postProcessor. unfold_m. apply for_of_all_skipped. exact H.
Qed.

Lemma for_of_app ctx pre : ∀ w w0 rest,
  for_of pre (process_marker vault render ctx) w = (w0, Ok tt) →
  for_of (pre ++ rest) (process_marker vault render ctx) w =
  for_of rest (process_marker vault render ctx) w0.
Proof.
  induction pre as [|t pre IH]; intros w w0 rest H.
  - injection H as <-. reflexivity.
  - cbn [for_of app] in *. unfold mbind, M_bind, bind in *.
    destruct (process_marker vault render ctx t w) as [w1 [[]|e|]];
      try discriminate H.
    apply IH. exact H.
Qed.

(** X8. The pass ends at the first iteration that throws: the exception
    leaves the loop, the markers after it are not examined, and the world
    is the one the failing iteration left. *)
Theorem pass_stops_at_first_failure el ctx w pre t rest w0 w1 e :
  Dom.querySelectorAll (nodes w) el = pre ++ t :: rest →
  for_of pre (process_marker vault render ctx) w = (w0, Ok tt) →
  process_marker vault render ctx t w0 = (w1, Throw e) →
  postProcessor vault render el ctx w = (w1, Throw e).
Proof.
  intros Hq Hpre Ht. unfold postProcessor. unfold_m. rewrite Hq.
  rewrite (for_of_app ctx pre w w0) by exact Hpre.
  cbn [for_of]. unfold mbind, M_bind, bind. rewrite Ht. reflexivity.
Qed.

(** X9. When [vault.read] rejects for a marker that was entered, the
    iteration throws that error; the tree is untouched (the marker stays
    in place), the renderer is not called, the only event is the read,
    and the path is in the set of files being embedded. *)
Theorem read_failure_effect ctx w t p f e :
  target vault w t = Some (p, f) →
  p ∉ embeddedFiles w →
  read vault f = inl e →
  process_marker vault render ctx t w =
  (mkWorld (nodes w) (settings w) ({[p]} ∪ embeddedFiles w)
     (trace w ++ [VaultRead f]), Throw e).
Proof.
  intros Ht Hp Hr. rewrite process_marker_target, Ht.
  rewrite embed_fresh by exact Hp. apply enter_read_fails. exact Hr.
Qed.

End PassExtras.

Lemma with_container_keeps (d : DOM) n :
  is_Some (d !! n) → (with_container d).1 !! n = d !! n.
Proof.
  intros Hn. unfold with_container, Dom.createDiv, Dom.addClass.
  cbn [fst]. rewrite lookup_total_insert_eq. cbn [classList].
  pose proof (fresh_absent d n Hn) as Hne.
  case_bool_decide.
  - rewrite lookup_insert_ne by congruence. reflexivity.
  - rewrite !lookup_insert_ne by congruence. reflexivity.
Qed.

Lemma with_container_new (d : DOM) :
  (with_container d).2 = fresh (dom d) ∧
  (with_container d).1 !! fresh (dom d) =
  Some (mkElement (units "DIV") None [units "native-transclusion"] [] []
          None []).
Proof.
  unfold with_container, Dom.createDiv, Dom.addClass. cbn [fst snd].
  rewrite lookup_total_insert_eq. cbn [classList].
  split; [reflexivity|].
  rewrite bool_decide_eq_false_2 by (intros H; inversion H).
  rewrite lookup_insert_eq. reflexivity.
Qed.

(** What [enter] does up to the call of the host's renderer. *)
Lemma enter_host_render vault host pp ctx t w p f content content' :
  read vault f = inr content →
  prepared_content w t content = Some content' →
  enter vault (host_render host pp) t p f ctx w =
  let '(d1, container) := with_container (nodes w) in
  let w1 := mkWorld d1 (settings w) ({[p]} ∪ embeddedFiles w)
              (trace w ++ [VaultRead f; Render content' container p]) in
  match build host content' p container d1 with
  | inl e => (w1, Throw e)
  | inr d2 =>
    match pp container (mkCtx p) (set_nodes d2 w1) with
    | (w3, Ok _) =>
      (mkWorld (Dom.replaceWith t container (nodes w3)) (settings w3)
         (embeddedFiles w3 ∖ {[p]}) (trace w3), Ok tt)
    | (w3, Throw e) => (w3, Throw e)
    | (w3, Diverge) => (w3, Diverge)
    end
  end.
Proof.
  intros Hr Hc. unfold prepared_content in Hc.
  unfold enter, shiftHeadings, host_render, with_container. unfold_m.
  rewrite Hr. unfold_m.
  assert (∀ c : jsstr, (trace w ++ [VaultRead f]) ++ [Render c (fresh (dom (nodes w))) p]
          = trace w ++ [VaultRead f; Render c (fresh (dom (nodes w))) p]) as Htr.
  { intros c. rewrite <- app_assoc. reflexivity. }
  destruct (Js.truthy (settings w !! key_shiftHeadings)); red_m.
  - destruct (getParentHeaderLevel (nodes w) t) as [b|]; [|discriminate Hc].
    injection Hc as <-. red_m. rewrite Htr.
    destruct (build host _ p _ _) as [e|d2]; [reflexivity|]. red_m.
    destruct (pp _ _ _) as [w3 [[]|e|]]; reflexivity.
  - injection Hc as <-. rewrite Htr.
    destruct (build host _ p _ _) as [e|d2]; [reflexivity|]. red_m.
    destruct (pp _ _ _) as [w3 [[]|e|]]; reflexivity.
Qed.

(** X10. When the host's renderer rejects for a marker that was
    entered, the iteration throws that error; every node that existed
    before is as it was (the marker stays in place), the only new node is
    the detached container [div.native-transclusion], and the path is in
    the set of files being embedded. *)
Theorem render_failure_effect vault host pp ctx w t p f content content' e :
  target vault w t = Some (p, f) →
  p ∉ embeddedFiles w →
  read vault f = inr content →
  prepared_content w t content = Some content' →
  build host content' p (with_container (nodes w)).2
    (with_container (nodes w)).1 = inl e →
  process_marker vault (host_render host pp) ctx t w =
  (mkWorld (with_container (nodes w)).1 (settings w)
     ({[p]} ∪ embeddedFiles w)
     (trace w ++ [VaultRead f;
                  Render content' (with_container (nodes w)).2 p]),
   Throw e) ∧
  (∀ n, is_Some (nodes w !! n) →
     (with_container (nodes w)).1 !! n = nodes w !! n) ∧
  (with_container (nodes w)).1 !! (with_container (nodes w)).2 =
    Some (mkElement (units "DIV") None [units "native-transclusion"] [] []
            None []).
Proof.
  intros Ht Hp Hr Hc Hb. split; [|split].
  - rewrite process_marker_target, Ht, embed_fresh by exact Hp.
    rewrite (enter_host_render _ _ _ _ _ _ _ _ content content') by assumption.
    destruct (with_container (nodes w)) as [d1 c]. cbn [fst snd] in *.
    rewrite Hb. reflexivity.
  - intros n. apply with_container_keeps.
  - destruct (with_container_new (nodes w)) as [-> H]. exact H.
Qed.

(** X11. For a marker that is entered and whose file is read, the
    renderer is called right after the read, with a new [div] as
    container, the path of the file as source path, and as text the
    content of the file, shifted by the level of the marker's nearest
    heading ancestor when [shiftHeadings] is set and verbatim
    otherwise. *)
Theorem renderer_input vault host depth ctx w t p f content content' :
  target vault w t = Some (p, f) →
  p ∉ embeddedFiles w →
  read vault f = inr content →
  prepared_content w t content = Some content' →
  ∃ evs,
    trace (fst (process_marker vault
                  (host_render host (pipeline vault host depth)) ctx t w)) =
    trace w ++ VaultRead f :: Render content' (fresh (dom (nodes w))) p :: evs.
Proof.
  intros Ht Hp Hr Hc.
  rewrite process_marker_target, Ht, embed_fresh by exact Hp.
  rewrite (enter_host_render _ _ _ _ _ _ _ _ content content') by assumption.
  destruct (with_container_new (nodes w)) as [Hn _].
  destruct (with_container (nodes w)) as [d1 c]. cbn [fst snd] in *. subst c.
  destruct (build host content' p _ d1) as [e|d2].
  { exists []. reflexivity. }
  destruct (pipeline vault host depth _ _ _) as [w3 o3] eqn:E.
  apply pipeline_extends_trace in E as [evs Hevs]. cbn [trace set_nodes] in Hevs.
  exists evs. rewrite <- app_assoc in Hevs. cbn [app] in Hevs.
  destruct o3 as [[]|e|]; cbn [fst trace]; exact Hevs.
Qed.

(** X12. A pass that returns normally, nested renders included, leaves
    the set of files being embedded exactly as it found it, and the
    settings too. *)
Theorem pass_restores_guard vault host depth el ctx w w' :
  pipeline vault host depth el ctx w = (w', Ok tt) →
  embeddedFiles w' = embeddedFiles w ∧ settings w' = settings w.
Proof. apply pipeline_keeps_guard. Qed.

(** X13. After [onload] the set of files being embedded is sound (it
    holds only non-empty paths the vault resolves to a file), and a pass
    keeps it sound whatever its outcome: return, throw or exhausted
    bound. *)
Theorem guard_holds_resolved_files vault host :
  (∀ data w, guard_sound vault (fst (onload data w))) ∧
  (∀ depth el ctx w w' o,
     guard_sound vault w →
     pipeline vault host depth el ctx w = (w', o) →
     guard_sound vault w').
Proof.
  split; [apply onload_guard_sound|].
  intros depth el ctx w w' o Hw H.
  eapply pipeline_keeps_sound; eauto.
Qed.

(** *** The guard bounds the nesting *)

Lemma guard_measure (F S : gset jsstr) p :
  p ∈ F → p ∉ S → size (F ∖ ({[p]} ∪ S)) < size (F ∖ S).
Proof.
  intros HF HS. apply subset_size. split.
  - intros x Hx. apply elem_of_difference in Hx as [H1 H2].
    apply elem_of_difference. split; [exact H1|].
    intros H3. apply H2, elem_of_union. right. exact H3.
  - intros H.
    assert (p ∈ F ∖ ({[p]} ∪ S)) as Hp.
    { apply H, elem_of_difference. split; assumption. }
    apply elem_of_difference in Hp as [_ Hp].
    apply Hp, elem_of_union. left. apply elem_of_singleton. reflexivity.
Qed.

Section Nesting.

Variable vault : Vault.
Variable host : Renderer.
Variable files : gset jsstr.

Hypothesis files_complete :
  ∀ p f, getAbstractFileByPath vault p = Some f → is_file f = true → p ∈ files.

Lemma target_in_files w t p f : target vault w t = Some (p, f) → p ∈ files.
Proof.
  unfold target.
  destruct (shouldProcess w t); [|discriminate].
  destruct (Dom.getAttribute_src (nodes w) t) as [q|]; [|discriminate].
  destruct (Js.truthy_str q); [|discriminate].
  destruct (getAbstractFileByPath vault q) as [g|] eqn:Hg; [|discriminate].
  destruct (is_file g) eqn:Hf; [|discriminate].
  intros [= <- <-]. eauto.
Qed.

Lemma pipeline_ends : ∀ depth el ctx w,
  fits files depth w → ended (snd (pipeline vault host depth el ctx w)) = true.
Proof.
  induction depth as [|depth IH]; intros el ctx w [Hs Hd]; [lia|].
  cbn [pipeline]. unfold postProcessor. unfold_m.
  set (R := host_render host (pipeline vault host depth)).
  assert (∀ content container path ctx,
            keeps_guard (R content container path ctx)) as HR.
  { apply host_render_keeps_guard, pipeline_keeps_guard. }
  generalize (Dom.querySelectorAll (nodes w) el). intros ts.
  assert (fits files (S depth) w) as Hw by (split; assumption).
  clear Hs Hd. revert w Hw.
  induction ts as [|t ts IHts]; intros w Hw; [reflexivity|].
  cbn [for_of]. unfold mbind, M_bind, bind.
  assert (ended (snd (process_marker vault R ctx t w)) = true) as Hstep.
  { rewrite process_marker_target.
    destruct (target vault w t) as [[p f]|] eqn:Ht; [|reflexivity].
    destruct (decide (p ∈ embeddedFiles w)) as [Hin|Hout].
    { rewrite embed_inflight by exact Hin. reflexivity. }
    rewrite embed_fresh by exact Hout.
    destruct (read vault f) as [e|content] eqn:Hr.
    { rewrite (enter_read_fails _ _ _ _ _ _ _ e) by exact Hr. reflexivity. }
    destruct Hw as [Hs Hd].
    unfold R.
    rewrite (enter_host_render _ _ _ _ _ _ _ _ content content);
      [|exact Hr|unfold prepared_content; rewrite Hs; reflexivity].
    destruct (with_container (nodes w)) as [d1 c]. cbv beta iota zeta.
    destruct (build host content p c d1) as [e|d2]; [reflexivity|].
    match goal with |- context [pipeline vault host depth ?a ?b ?v] =>
      pose proof (IH a b v) as Hnest;
      destruct (pipeline vault host depth a b v) as [w3 o3] end.
    cbn [snd] in Hnest.
    destruct o3 as [[]|e|]; [reflexivity|reflexivity|].
    apply Hnest. split; [exact Hs|]. cbn [embeddedFiles set_nodes].
    pose proof (guard_measure files (embeddedFiles w) p
                  (target_in_files _ _ _ _ Ht) Hout). lia. }
  destruct (process_marker vault R ctx t w) as [w1 [[]|e|]] eqn:E;
    [|reflexivity|discriminate Hstep].
  apply IHts.
  apply process_marker_keeps_guard in E as [E1 E2]; [|exact HR].
  destruct Hw as [Hs Hd]. split; [rewrite E2; exact Hs|rewrite E1; exact Hd].
Qed.

End Nesting.

(** X14. The guard bounds the nesting of renders: if all the files of
    the vault are among [files] and headings are not shifted, a pass
    given a nesting bound above the number of files of [files] not yet
    being embedded ends (returns or throws) without reaching the bound,
    whatever embeds what. *)
Theorem nesting_is_bounded (vault : Vault) (host : Renderer)
    (files : gset jsstr) depth el ctx w :
  (∀ p f, getAbstractFileByPath vault p = Some f → is_file f = true →
          p ∈ files) →
  Js.truthy (settings w !! key_shiftHeadings) = false →
  size (files ∖ embeddedFiles w) < depth →
  ended (snd (pipeline vault host depth el ctx w)) = true.
Proof.
  intros Hf Hs Hd. apply (pipeline_ends vault host files Hf). split; assumption.
Qed.

Lemma pass_over_skipped_markers_witness :
  postProcessor example_vault example_render 1%positive example_ctx quiet_world =
  (quiet_world, Ok tt).
Proof.
  apply pass_over_skipped_markers.
  repeat constructor.
Defined.

Lemma pass_stops_at_first_failure_witness :
  snd (postProcessor example_vault example_render 1%positive example_ctx
         example_world) = Throw (Exn (units "EIO")).
Proof.
  pose proof (pass_stops_at_first_failure example_vault example_render
                1%positive example_ctx example_world
                [2; 3]%positive 4%positive [5; 6; 7; 8; 9; 10; 11]%positive
                (fst (for_of [2; 3]%positive
                        (process_marker example_vault example_render example_ctx)
                        example_world))
                (fst (process_marker example_vault example_render example_ctx
                        4%positive
                        (fst (for_of [2; 3]%positive
                                (process_marker example_vault example_render
                                   example_ctx) example_world))))
                (Exn (units "EIO"))) as H.
  rewrite H.
  - reflexivity.
  - vm_compute. reflexivity.
  - vm_compute. reflexivity.
  - vm_compute. reflexivity.
Defined.

Lemma read_failure_effect_witness :
  snd (process_marker example_vault example_render example_ctx 4%positive
         example_world) = Throw (Exn (units "EIO")).
Proof.
  rewrite (read_failure_effect example_vault example_render example_ctx
             example_world 4%positive locked_md (TFile locked_md)
             (Exn (units "EIO"))).
  - reflexivity.
  - reflexivity.
  - apply not_elem_of_empty.
  - reflexivity.
Defined.

Lemma render_failure_effect_witness :
  snd (process_marker example_vault example_render example_ctx 5%positive
         example_world) = Throw (Exn (units "render failed")).
Proof.
  unfold example_render.
  rewrite (proj1 (render_failure_effect example_vault example_host
             (pipeline example_vault example_host 4) example_ctx
             example_world 5%positive broken_md (TFile broken_md)
             (units "# Title") (units "# Title") (Exn (units "render failed"))
             eq_refl (not_elem_of_empty _) eq_refl eq_refl eq_refl)).
  reflexivity.
Defined.

Lemma renderer_input_witness :
  ∃ evs,
    trace (fst (process_marker example_vault
                  (host_render example_host (pipeline example_vault example_host 4))
                  example_ctx 2%positive example_world)) =
    [] ++ VaultRead (TFile plain_md) ::
      Render (units "# Title") (fresh (dom example_doc)) plain_md :: evs.
Proof.
  exact (renderer_input example_vault example_host 4 example_ctx example_world
           2%positive plain_md (TFile plain_md) (units "# Title") (units "# Title")
           eq_refl (not_elem_of_empty _) eq_refl eq_refl).
Defined.

Lemma pass_restores_guard_witness :
  let w' := fst (pipeline example_vault example_host 4 1%positive
                   example_ctx nested_world) in
  embeddedFiles w' = ∅ ∧
  trace w' =
    [VaultRead (TFile plain_md); Render (units "# Title") 4%positive plain_md;
     VaultRead (TFile a_md); Render (units "see b") 5%positive a_md;
     VaultRead (TFile b_md); Render (units "see a") 7%positive b_md;
     ConsoleWarn (loop_message a_md)].
Proof.
  cbv zeta. split.
  - refine (proj1 (pass_restores_guard example_vault example_host 4 1%positive
                     example_ctx nested_world _ _)).
    vm_compute. reflexivity.
  - vm_compute. reflexivity.
Defined.

Lemma example_files_complete p f :
  getAbstractFileByPath example_vault p = Some f → is_file f = true →
  p ∈ example_files.
Proof.
  cbn [getAbstractFileByPath example_vault].
  case_bool_decide as Hin.
  - intros _ _. unfold example_files. apply elem_of_list_to_set. exact Hin.
  - case_bool_decide; [intros [= <-]; discriminate|discriminate].
Defined.

Lemma nesting_is_bounded_witness :
  ended (snd (pipeline example_vault example_host 6 1%positive example_ctx
                example_world)) = true.
Proof.
  apply (nesting_is_bounded example_vault example_host example_files).
  - exact example_files_complete.
  - reflexivity.
  - vm_compute. lia.
Defined.

Lemma guard_holds_resolved_files_witness :
  guard_sound example_vault
    (fst (pipeline example_vault example_host 4 1%positive example_ctx
            example_world)).
Proof.
  refine (proj2 (guard_holds_resolved_files example_vault example_host)
            4 1%positive example_ctx example_world _ _ _ _).
  - intros p Hp. exfalso. exact (not_elem_of_empty p Hp).
  - vm_compute. reflexivity.
Defined.

(** Replacing a node that has a parent by a detached one. *)
Lemma replaceWith_detached (d : DOM) old new par :
  parentElement (d !!! old) = Some par →
  parentElement (d !!! new) = None →
  new ≠ old → new ≠ par →
  let d' := Dom.replaceWith old new d in
  d' !!! new = Dom.with_parent (d !!! new) (Some par) ∧
  childElements (d' !!! par) =
    Dom.replace_child old new (childElements (d !!! par)) ∧
  parentElement (d' !!! old) = None ∧
  (∀ n, n ≠ old → n ≠ new → n ≠ par → d' !! n = d !! n).
Proof.
  intros Hold Hnew Hno Hnp d'. subst d'.
  unfold Dom.replaceWith, Dom.detach. rewrite Hold, Hnew.
  set (d2 := <[par := _]> d).
  assert (d2 !!! new = d !!! new) as E2
    by (unfold d2; apply lookup_total_insert_ne; congruence).
  rewrite E2.
  set (d3 := <[new := _]> d2).
  split; [|split; [|split]].
  - rewrite lookup_total_insert_ne by congruence.
    unfold d3. apply lookup_total_insert_eq.
  - destruct (decide (par = old)) as [->|Hpo].
    + rewrite lookup_total_insert_eq. cbn [Dom.with_parent childElements].
      unfold d3. rewrite lookup_total_insert_ne by congruence.
      unfold d2. rewrite lookup_total_insert_eq. reflexivity.
    + rewrite lookup_total_insert_ne by congruence.
      unfold d3. rewrite lookup_total_insert_ne by congruence.
      unfold d2. rewrite lookup_total_insert_eq. reflexivity.
  - rewrite lookup_total_insert_eq. reflexivity.
  - intros n H1 H2 H3.
    rewrite lookup_insert_ne by congruence.
    unfold d3. rewrite lookup_insert_ne by congruence.
    unfold d2. rewrite lookup_insert_ne by congruence. reflexivity.
Qed.

(** X15. When a marker is entered, the file is read, the renderer builds
    the content and the nested pass returns, leaving the marker attached
    to its parent and the container detached: the iteration returns, the
    container stands where the marker stood among the children of that
    parent and has it as parent, keeps its classes, the marker is
    detached, no other node changes, the path is removed from the set of
    files being embedded, and nothing else is logged. *)
Theorem successful_embed_splices vault host pp ctx w t p f content content'
    d2 w3 par :
  target vault w t = Some (p, f) →
  p ∉ embeddedFiles w →
  read vault f = inr content →
  prepared_content w t content = Some content' →
  let c := (with_container (nodes w)).2 in
  build host content' p c (with_container (nodes w)).1 = inr d2 →
  pp c (mkCtx p)
    (mkWorld d2 (settings w) ({[p]} ∪ embeddedFiles w)
       (trace w ++ [VaultRead f; Render content' c p])) = (w3, Ok tt) →
  parentElement (nodes w3 !!! t) = Some par →
  parentElement (nodes w3 !!! c) = None →
  c ≠ t → c ≠ par →
  let w' := fst (process_marker vault (host_render host pp) ctx t w) in
  process_marker vault (host_render host pp) ctx t w = (w', Ok tt) ∧
  childElements (nodes w' !!! par) =
    Dom.replace_child t c (childElements (nodes w3 !!! par)) ∧
  parentElement (nodes w' !!! c) = Some par ∧
  classList (nodes w' !!! c) = classList (nodes w3 !!! c) ∧
  parentElement (nodes w' !!! t) = None ∧
  (∀ n, n ≠ t → n ≠ c → n ≠ par → nodes w' !! n = nodes w3 !! n) ∧
  embeddedFiles w' = embeddedFiles w3 ∖ {[p]} ∧
  settings w' = settings w3 ∧
  trace w' = trace w3.
Proof.
  intros Ht Hp Hr Hc c Hb Hpp Hpar Hdet Hct Hcp w'.
  assert (process_marker vault (host_render host pp) ctx t w =
          (mkWorld (Dom.replaceWith t c (nodes w3)) (settings w3)
             (embeddedFiles w3 ∖ {[p]}) (trace w3), Ok tt)) as Hrun.
  { rewrite process_marker_target, Ht, embed_fresh by exact Hp.
    rewrite (enter_host_render _ _ _ _ _ _ _ _ content content') by assumption.
    subst c. destruct (with_container (nodes w)) as [d1 c]. cbn [fst snd] in *.
    rewrite Hb. unfold set_nodes. cbn [nodes settings embeddedFiles trace].
    rewrite Hpp. reflexivity. }
  subst w'. rewrite Hrun. cbn [fst nodes settings embeddedFiles trace].
  destruct (replaceWith_detached (nodes w3) t c par Hpar Hdet Hct Hcp)
    as (Hnew & Hkids & Hold & Hrest).
  split; [reflexivity|]. split; [exact Hkids|].
  rewrite Hnew. cbn [Dom.with_parent parentElement classList].
  auto 10.
Qed.

Lemma successful_embed_splices_witness :
  childElements
    (nodes (fst (process_marker example_vault example_render example_ctx
                   2%positive example_world)) !!! 1%positive) =
  [12; 3; 4; 5; 6; 7; 8; 9; 10; 11]%positive.
Proof.
  unfold example_render.
  rewrite (proj1 (proj2 (successful_embed_splices example_vault example_host
             (pipeline example_vault example_host 4) example_ctx example_world
             2%positive plain_md (TFile plain_md) (units "# Title")
             (units "# Title")
             (with_container example_doc).1
             (fst (pipeline example_vault example_host 4 12%positive
                     (mkCtx plain_md)
                     (mkWorld (with_container example_doc).1 default_settings
                        {[plain_md]}
                        [VaultRead (TFile plain_md);
                         Render (units "# Title") 12%positive plain_md])))
             1%positive
             eq_refl (not_elem_of_empty _) eq_refl eq_refl
             ltac:(vm_compute; reflexivity) ltac:(vm_compute; reflexivity)
             ltac:(vm_compute; reflexivity) ltac:(vm_compute; reflexivity)
             ltac:(vm_compute; discriminate) ltac:(vm_compute; discriminate)))).
  vm_compute. reflexivity.
Defined.

(** ** Settings *)

Section SettingsExtras.

Lemma set_settings_same w : set_settings (settings w) w = w.
Proof. destruct w. reflexivity. Qed.

Lemma loaded_has_defaults data key :
  key = key_renderAll ∨ key = key_shiftHeadings →
  is_Some (Js.assign default_settings data !! key).
Proof.
  intros Hkey.
  assert (default_settings !! key = Some (Js.VBool false)) as Hdef.
  { destruct Hkey as [-> | ->]; vm_compute; reflexivity. }
  destruct data as [o|]; cbn [Js.assign]; [|rewrite Hdef; eauto].
  rewrite lookup_union, Hdef. destruct (o !! key); cbn; eauto.
Qed.

Lemma assign_defaults_covered (s : Js.object) :
  is_Some (s !! key_renderAll) → is_Some (s !! key_shiftHeadings) →
  Js.assign default_settings (Some s) = s.
Proof.
  intros [v1 H1] [v2 H2]. cbn [Js.assign]. apply map_eq. intros k.
  rewrite lookup_union. destruct (s !! k) as [v|] eqn:E; [destruct (default_settings !! k); reflexivity|].
  unfold default_settings.
  destruct (decide (k = key_renderAll)) as [->|N1]; [congruence|].
  destruct (decide (k = key_shiftHeadings)) as [->|N2]; [congruence|].
  rewrite lookup_insert_ne, lookup_singleton_ne by congruence.
  reflexivity.
Qed.

(** X16. Settings obtained by [loadSettings] survive a save and a
    reload: [saveSettings] returns, the data file holds exactly the
    settings, and loading from it leaves the plugin as it is. *)
Theorem settings_round_trip data w st :
  write_error st = None →
  let w1 := fst (loadSettings data w) in
  let a2 := fst (saveSettings (w1, st)) in
  saveSettings (w1, st) = (a2, Ok tt) ∧
  loadData a2.2 = Some (settings w1) ∧
  loadSettings_from a2 = (a2, Ok tt).
Proof.
  intros Hst w1 a2. subst a2 w1.
  unfold saveSettings, saveData, loadSettings_from, loadData.
  cbn [fst snd]. rewrite Hst. cbn [fst snd data_json].
  split; [reflexivity|]. split; [reflexivity|].
  unfold loadSettings. unfold_m.
  rewrite assign_defaults_covered by (apply loaded_has_defaults; auto).
  reflexivity.
Qed.

(** X17. The callback of a toggle, when the save goes through: its own
    setting is the boolean chosen, every other setting and the rest of
    the plugin are unchanged, and the data file holds the new
    settings. *)
Theorem toggle_sets_and_saves key value a :
  write_error a.2 = None →
  let r := onChange key value a in
  snd r = Ok tt ∧
  settings r.1.1 !! key = Some (Js.VBool value) ∧
  (∀ k, k ≠ key → settings r.1.1 !! k = settings a.1 !! k) ∧
  nodes r.1.1 = nodes a.1 ∧ embeddedFiles r.1.1 = embeddedFiles a.1 ∧
  trace r.1.1 = trace a.1 ∧
  loadData r.1.2 = Some (settings r.1.1).
Proof.
  intros Hst. destruct a as [w st]. cbn [fst snd] in *.
  unfold onChange, saveSettings, saveData, set_setting, loadData.
  cbn [fst snd settings set_settings]. rewrite Hst.
  cbn [fst snd settings nodes embeddedFiles trace data_json set_settings].
  repeat split.
  - apply lookup_insert_eq.
  - intros k Hk. apply lookup_insert_ne. congruence.
Qed.

(** X18. The callback of a toggle, when [saveData] rejects: the error
    propagates, the data file is unchanged, and the setting is changed in
    memory all the same (the assignment precedes the save). *)
Theorem toggle_with_failed_save key value a e :
  write_error a.2 = Some e →
  onChange key value a = ((set_setting key value a.1, a.2), Throw e) ∧
  settings (set_setting key value a.1) !! key = Some (Js.VBool value).
Proof.
  intros Hst. destruct a as [w st]. cbn [fst snd] in *.
  unfold onChange, saveSettings, saveData. cbn [fst snd]. rewrite Hst.
  split; [reflexivity|]. apply lookup_insert_eq.
Qed.

(** X19. After the callback of the first toggle, saved or not, a marker
    passes the gate exactly when the toggle is on or the marker is
    explicit; after that of the second, the text handed to the renderer
    is the shifted content when the toggle is on and the content itself
    when it is off. *)
Theorem toggles_steer_the_pass value a :
  (∀ t, shouldProcess (onChange key_renderAll value a).1.1 t =
        value || isExplicit (nodes a.1) t) ∧
  (∀ t content,
     prepared_content (onChange key_shiftHeadings value a).1.1 t content =
     if value
     then (λ level, shift level content) <$> getParentHeaderLevel (nodes a.1) t
     else Some content).
Proof.
  destruct a as [w st].
  assert (∀ key, (onChange key value (w, st)).1.1 = set_setting key value w)
    as Hw.
  { intros key. unfold onChange, saveSettings, saveData. cbn [fst snd].
    destruct (write_error st); reflexivity. }
  split.
  - intros t. rewrite Hw. unfold shouldProcess, set_setting.
    cbn [settings nodes set_settings fst]. rewrite lookup_insert_eq. reflexivity.
  - intros t content. rewrite Hw. unfold prepared_content, set_setting.
    cbn [settings nodes set_settings fst]. rewrite lookup_insert_eq. reflexivity.
Qed.

(** X20. [display] sets the two toggles to the current values of
    [renderAllTransclusions] and [shiftHeadings], in that order; after
    the callback of either toggle a new [display] shows the value chosen
    for that toggle and the former value for the other. *)
Theorem display_shows_settings w :
  map toggle_value (display w).2 =
    [settings w !! key_renderAll; settings w !! key_shiftHeadings] ∧
  (∀ value st,
     map (λ t, map toggle_value
                 (display (toggle_onChange t value (w, st)).1.1).2)
       (display w).2 =
     [[Some (Js.VBool value); settings w !! key_shiftHeadings];
      [settings w !! key_renderAll; Some (Js.VBool value)]]).
Proof.
  split; [reflexivity|].
  intros value st.
  assert (∀ key, (onChange key value (w, st)).1.1 = set_setting key value w)
    as Hw.
  { intros key. unfold onChange, saveSettings, saveData. cbn [fst snd].
    destruct (write_error st); reflexivity. }
  cbn [display snd map toggle_value toggle_onChange]. rewrite !Hw.
  unfold set_setting. cbn [settings set_settings].
  rewrite !lookup_insert_eq.
  rewrite (lookup_insert_ne _ key_renderAll key_shiftHeadings) by discriminate.
  rewrite (lookup_insert_ne _ key_shiftHeadings key_renderAll) by discriminate.
  reflexivity.
Qed.

End SettingsExtras.

Lemma settings_round_trip_witness :
  loadSettings_from
    (fst (saveSettings
            (fst (loadSettings (Some {[key_renderAll := Js.VBool true]})
                    example_world), empty_storage))) =
  (fst (saveSettings
          (fst (loadSettings (Some {[key_renderAll := Js.VBool true]})
                  example_world), empty_storage)), Ok tt).
Proof.
  exact (proj2 (proj2 (settings_round_trip
           (Some {[key_renderAll := Js.VBool true]}) example_world
           empty_storage eq_refl))).
Defined.

Lemma toggle_sets_and_saves_witness :
  settings (onChange key_renderAll true (example_world, empty_storage)).1.1
    !! key_shiftHeadings = Some (Js.VBool false).
Proof.
  rewrite (proj1 (proj2 (proj2 (toggle_sets_and_saves key_renderAll true
             (example_world, empty_storage) eq_refl)))
             key_shiftHeadings).
  - reflexivity.
  - discriminate.
Defined.

Lemma toggle_with_failed_save_witness :
  onChange key_shiftHeadings true (example_world, locked_storage) =
  ((set_setting key_shiftHeadings true example_world, locked_storage),
   Throw (Exn (units "EACCES"))).
Proof.
  exact (proj1 (toggle_with_failed_save key_shiftHeadings true
                  (example_world, locked_storage) (Exn (units "EACCES"))
                  eq_refl)).
Defined.
